(** * alx-polly: the request middleware and its rate limiter

    Shallow embedding of [src/middleware.ts] (the same limiter is repeated
    verbatim at the end of [src/app/lib/actions/auth-actions.ts]).

    Modelling conventions.
    - JavaScript numbers that the limiter handles are millisecond timestamps
      ([Date.now()]) and request counters; both are integers far inside the
      range where double arithmetic is exact, so they are modelled as [Z].
    - [Date.now()] is the only input of [isRateLimited] besides its argument;
      it is made an explicit parameter [now].
    - [ipHits] is a JavaScript [Map] from strings to object references.  The
      code reads a reference with [ipHits.get], mutates the object it points
      to ([record.count += 1]) and, on the admitting path only, stores the
      same reference back.  The store therefore has two layers: a heap of
      record objects and a map from keys to heap locations. *)

From Stdlib Require Import ZArith Lia Ascii String.
From stdpp Require Import base option gmap strings list.

Local Open Scope Z_scope.

(** ** The limiter *)

Module Limiter.

Definition RATE_LIMIT_WINDOW_MS : Z := 60000.
Definition RATE_LIMIT_MAX : Z := 10.

(** The object literal [{ count, resetAt }]. *)
Record HitRecord : Type := mkHit { count : Z; resetAt : Z }.

Definition loc : Type := positive.

(** [objects]: the heap of record objects; [ipHits]: the module-level [Map]. *)
Record Store : Type := mkStore {
  objects : gmap loc HitRecord;
  ipHits : gmap string loc
}.

Definition init : Store := mkStore ∅ ∅.

(** [ipHits.get(ip)] followed by reading the fields of the object obtained. *)
Definition deref (σ : Store) (l : loc) : option HitRecord := objects σ !! l.

Definition record_of (σ : Store) (ip : string) : option HitRecord :=
  ipHits σ !! ip ≫= deref σ.

(** Allocation of a new object literal. *)
Definition alloc (σ : Store) : loc := fresh (dom (objects σ)).

(** [ipHits.set(ip, l)]. *)
Definition map_set (ip : string) (l : loc) (σ : Store) : Store :=
  mkStore (objects σ) (<[ip := l]> (ipHits σ)).

(** [record.count += 1] performed through the reference [l]. *)
Definition bump (l : loc) (σ : Store) : Store :=
  mkStore (alter (λ r, mkHit (count r + 1) (resetAt r)) l (objects σ)) (ipHits σ).

(** The first branch of [isRateLimited]: a new object literal
    [{ count: 1, resetAt: now + RATE_LIMIT_WINDOW_MS }] is allocated and
    [ipHits.set(ip, ...)] points the key at it. *)
Definition new_window (ip : string) (now : Z) (σ : Store) : Store :=
  let l := alloc σ in
  map_set ip l
    (mkStore (<[l := mkHit 1 (now + RATE_LIMIT_WINDOW_MS)]> (objects σ)) (ipHits σ)).

(** [isRateLimited(ip)], with [Date.now()] passed as [now].  The result
    [true] means the request is rejected.  A key whose reference does not
    point to an allocated object reads as [undefined]; [wf_reachable] below
    shows that this never happens. *)
Definition isRateLimited (ip : string) (now : Z) (σ : Store) : bool * Store :=
  match ipHits σ !! ip with
  | None => (false, new_window ip now σ)
  | Some l =>
      match deref σ l with
      | None => (false, new_window ip now σ)
      | Some record =>
          if resetAt record <? now then (false, new_window ip now σ)
          else
            let σ1 := bump l σ in
            if RATE_LIMIT_MAX <? count record + 1 then (true, σ1)
            else (false, map_set ip l σ1)
      end
  end.

(** A sequence of calls, each with the key it is made for and the time at
    which it is made; [run] performs them in order and collects the
    results. *)
Definition call : Type := string * Z.

Fixpoint run (cs : list call) (σ : Store) : list bool * Store :=
  match cs with
  | [] => ([], σ)
  | (ip, now) :: cs' =>
      let '(b, σ1) := isRateLimited ip now σ in
      let '(bs, σ2) := run cs' σ1 in
      (b :: bs, σ2)
  end.

Definition final (cs : list call) (σ : Store) : Store := (run cs σ).2.

(** *** Well-formed and reachable stores *)

(** Every reference held by [ipHits] points to an allocated object, and no
    object is shared between two keys. *)
Definition wf (σ : Store) : Prop :=
  (∀ k l, ipHits σ !! k = Some l → is_Some (objects σ !! l)) ∧
  (∀ k1 k2 l, ipHits σ !! k1 = Some l → ipHits σ !! k2 = Some l → k1 = k2).

(** The stores the module can be in: [init] after any sequence of calls. *)
Definition reachable (σ : Store) : Prop := ∃ cs, σ = final cs init.

(** *** One key at a time *)

(** What one call does to the record of its own key, as a function of that
    record alone: the three paths of [isRateLimited]. *)
Definition expired (o : option HitRecord) (now : Z) : bool :=
  match o with
  | None => true
  | Some r => resetAt r <? now
  end.

Definition step_rec (o : option HitRecord) (now : Z) : bool * HitRecord :=
  match o with
  | Some r =>
      if resetAt r <? now then (false, mkHit 1 (now + RATE_LIMIT_WINDOW_MS))
      else (RATE_LIMIT_MAX <? count r + 1, mkHit (count r + 1) (resetAt r))
  | None => (false, mkHit 1 (now + RATE_LIMIT_WINDOW_MS))
  end.

Fixpoint replay (o : option HitRecord) (ts : list Z) : list bool * option HitRecord :=
  match ts with
  | [] => ([], o)
  | t :: ts' =>
      let '(b, r) := step_rec o t in
      let '(bs, o') := replay (Some r) ts' in
      (b :: bs, o')
  end.

(** The times of the calls made for key [k], in order, and the results
    those calls get. *)
Definition times_for (k : string) (cs : list call) : list Z :=
  (filter (λ c : call, c.1 = k) cs).*2.

Definition calls_for (k : string) (cs : list call) : list call :=
  filter (λ c : call, c.1 = k) cs.

Fixpoint decisions_for (k : string) (cs : list call) (σ : Store) : list bool :=
  match cs with
  | [] => []
  | (ip, now) :: cs' =>
      let '(b, σ1) := isRateLimited ip now σ in
      if decide (ip = k) then b :: decisions_for k cs' σ1
      else decisions_for k cs' σ1
  end.

End Limiter.


(** ** The middleware *)

Module Middleware.
Import Limiter.

Local Open Scope string_scope.

(** The parts of a [NextRequest] the middleware reads.  [pathname] is
    [new URL(request.url).pathname]; [ip] is [undefined] when the platform
    supplies no address; [headers] maps lower-case header names to values, a
    missing name reading as [null].  A header value is a byte string, one
    [ascii] per code unit. *)
Record NextRequest : Type := mkRequest {
  method : string;
  pathname : string;
  ip : option string;
  headers : gmap string string
}.

(** The responses that occur: [new NextResponse(body, { status })], and the
    two that [updateSession] produces, [NextResponse.next({ request })] with
    the cookies set on it and [NextResponse.redirect(url)]. *)
Inductive NextResponse : Type :=
  | Response (body : string) (status : Z)
  | Next (cookies : list (string * string))
  | Redirect (target : string).

(** [s.split(',')] for a one-character separator. *)
Fixpoint split (sep : ascii) (s : string) : list string :=
  match s with
  | EmptyString => [EmptyString]
  | String c s' =>
      if Ascii.eqb c sep then EmptyString :: split sep s'
      else match split sep s' with
           | x :: xs => String c x :: xs
           | [] => [String c EmptyString]
           end
  end.

(** The code units below 256 that [String.prototype.trim] removes: tab, line
    feed, vertical tab, form feed, carriage return, space, no-break space. *)
Definition is_space (c : ascii) : bool :=
  let n := nat_of_ascii c in
  ((9 <=? n) && (n <=? 13) || (n =? 32) || (n =? 160))%nat.

Fixpoint trim_start (s : string) : string :=
  match s with
  | String c s' => if is_space c then trim_start s' else s
  | EmptyString => EmptyString
  end.

Fixpoint trim_end (s : string) : string :=
  match s with
  | String c s' =>
      match trim_end s' with
      | EmptyString => if is_space c then EmptyString else String c EmptyString
      | kept => String c kept
      end
  | EmptyString => EmptyString
  end.

Definition trim (s : string) : string := trim_end (trim_start s).

(** Strings made of white space only, and strings without a comma. *)
Fixpoint blank (s : string) : bool :=
  match s with
  | String c s' => is_space c && blank s'
  | EmptyString => true
  end.

Fixpoint no_comma (s : string) : bool :=
  match s with
  | String c s' => negb (Ascii.eqb c ",") && no_comma s'
  | EmptyString => true
  end.

(** [a || b] on values that are a string, [undefined] or [null]: the empty
    string is falsy like the two absent values. *)
Definition truthy (a : option string) : bool :=
  match a with
  | Some (String _ _) => true
  | _ => false
  end.

Definition js_or (a b : option string) : option string :=
  if truthy a then a else b.

(** [a || 'literal'] with a non-empty literal. *)
Definition js_or_lit (a : option string) (lit : string) : string :=
  match a with
  | Some (String c s) => String c s
  | _ => lit
  end.

(** [request.headers.get('x-forwarded-for')?.split(',')[0]?.trim()]. *)
Definition forwarded_first (request : NextRequest) : option string :=
  trim <$> (headers request !! "x-forwarded-for" ≫= λ v, split "," v !! 0%nat).

(** The constant [ip] of [middleware]. *)
Definition clientIp (request : NextRequest) : string :=
  js_or_lit (js_or (ip request) (forwarded_first request)) "unknown".

Definition isProtectedPath (request : NextRequest) : bool :=
  String.eqb (method request) "POST" &&
  (String.eqb (pathname request) "/login" || String.eqb (pathname request) "/create").

(** [updateSession] talks to the authentication provider; it is a parameter,
    acting on some state of the outside world. *)
Section WithSession.
Context {World : Type}.
Variable updateSession : NextRequest → World → NextResponse * World.

Definition middleware (request : NextRequest) (now : Z) (σ : Store) (w : World)
  : NextResponse * Store * World :=
  if isProtectedPath request then
    let '(limited, σ') := isRateLimited (clientIp request) now σ in
    if limited then (Response "Too Many Requests" 429, σ', w)
    else let '(resp, w') := updateSession request w in (resp, σ', w')
  else
    let '(resp, w') := updateSession request w in (resp, σ, w').
End WithSession.

(** The key derivation as the specification words it: the direct address if
    present, else the trimmed first entry of the forwarded header if that is
    present, else the sentinel. *)
Definition spec_clientKey (request : NextRequest) : string :=
  match ip request with
  | Some a => a
  | None =>
      match headers request !! "x-forwarded-for" with
      | Some v => trim (default "" (split "," v !! 0%nat))
      | None => "unknown"
      end
  end.

End Middleware.

(** ** Regular expressions

    The patterns of the repository, written as trees, and the matching of
    JavaScript regular expressions on a string of UTF-16 code units:
    alternatives in order, greedy repetition, backtracking.  [rmatch r s k]
    matches [r] at the start of [s] and hands the rest to [k]; the result is
    the number of code units the whole match has consumed. *)

Module Regex.

Inductive regex : Type :=
  | Chr (p : N → bool)
  | Eps
  | Seq (r1 r2 : regex)
  | Alt (r1 r2 : regex)
  | Star (r : regex)
  | NegLook (r : regex)
  | EndInput.

(** Greedy repetition of a matcher [m]: one more round first, then the
    continuation; a round that consumes nothing is not taken.  [fuel]
    bounds the number of rounds by the length of the input. *)
Fixpoint star_loop (m : list N → (list N → option nat) → option nat)
    (k : list N → option nat) (fuel : nat) (s : list N) : option nat :=
  match fuel with
  | O => k s
  | S fuel' =>
      match m s (λ s', if (length s' <? length s)%nat
                       then star_loop m k fuel' s' else None) with
      | Some n => Some n
      | None => k s
      end
  end.

Fixpoint rmatch (r : regex) (s : list N) (k : list N → option nat) : option nat :=
  match r with
  | Chr p =>
      match s with
      | c :: s' => if p c then S <$> k s' else None
      | [] => None
      end
  | Eps => k s
  | Seq a b => rmatch a s (λ s', rmatch b s' k)
  | Alt a b =>
      match rmatch a s k with
      | Some n => Some n
      | None => rmatch b s k
      end
  | Star a => star_loop (rmatch a) k (length s) s
  | NegLook a =>
      match rmatch a s (λ _, Some O) with
      | Some _ => None
      | None => k s
      end
  | EndInput =>
      match s with
      | [] => k s
      | _ :: _ => None
      end
  end.

(** The repetition of a single class, by recursion on the input; it is
    what [rmatch (Star (Chr p))] computes ([rmatch_star_chr]). *)
Fixpoint star_chr (p : N → bool) (k : list N → option nat) (s : list N) : option nat :=
  match s with
  | c :: s' =>
      if p c then
        match S <$> star_chr p k s' with
        | Some n => Some n
        | None => k s
        end
      else k s
  | [] => k s
  end.

(** The code units of a string literal of the source. *)
Definition codes (s : string) : list N :=
  N_of_ascii <$> list_ascii_of_string s.

(** A literal, with and without the [i] flag.  Under [i] two code units
    match when their upper-case forms agree; a code unit outside ASCII never
    has an ASCII upper-case form, so only the letters a-z need folding. *)
Definition upper (c : N) : N :=
  if ((97 <=? c) && (c <=? 122))%N then (c - 32)%N else c.

Definition lit (w : string) : regex :=
  foldr (λ c r, Seq (Chr (N.eqb c)) r) Eps (codes w).

Definition lit_i (w : string) : regex :=
  foldr (λ c r, Seq (Chr (λ x, N.eqb (upper x) (upper c))) r) Eps (codes w).

(** [.] without the [s] flag: anything but a line terminator. *)
Definition line_terminator (c : N) : bool :=
  ((c =? 10) || (c =? 13) || (c =? 8232) || (c =? 8233))%N.

Definition Dot : regex := Chr (λ c, negb (line_terminator c)).

Definition alts (rs : list regex) (last : regex) : regex := foldr Alt last rs.

(** The first match of [r] at the start of [s], if any: its length. *)
Definition match_len (r : regex) (s : list N) : option nat :=
  rmatch r s (λ _, Some O).

(** [r] matches the whole of [s], as for a pattern between [^] and [$]. *)
Definition full_match (r : regex) (s : list N) : bool :=
  bool_decide (is_Some (rmatch r s (λ rest, match rest with [] => Some O | _ => None end))).

(** [s.replace(/r/g, "")]: the matches are found from left to right, each
    search starting where the previous match ended, and are cut out.
    [skip] counts the code units of the current match still to drop. *)
Fixpoint remove_all (r : regex) (skip : nat) (s : list N) : list N :=
  match s with
  | [] => []
  | c :: s' =>
      match skip with
      | S n => remove_all r n s'
      | O =>
          match match_len r s with
          | Some (S n) => remove_all r n s'
          | _ => c :: remove_all r O s'
          end
      end
  end.

Definition replace_empty (r : regex) (s : list N) : list N := remove_all r O s.

End Regex.

(** ** [config.matcher] *)

Module Matcher.
Import Regex.
Local Open Scope string_scope.

(** The one pattern of [config.matcher]: a slash; a negative lookahead with
    the alternatives [_next/static], [_next/image], [favicon.ico] (its dot
    unescaped), [login], [register] and "anything, an escaped dot, one of
    six image extensions, end of input"; then anything. *)
Definition image_extensions : list string :=
  ["svg"; "png"; "jpg"; "jpeg"; "gif"; "webp"].

Definition lookahead : regex :=
  alts [lit "_next/static"; lit "_next/image";
        Seq (lit "favicon") (Seq Dot (lit "ico"));
        lit "login"; lit "register"]
    (Seq (Star Dot)
       (Seq (lit ".")
          (Seq (alts [lit "svg"; lit "png"; lit "jpg"; lit "jpeg"; lit "gif"] (lit "webp"))
             EndInput))).

Definition matcher : regex :=
  Seq (lit "/") (Seq (NegLook lookahead) (Star Dot)).

(** Next.js runs the middleware for the requests whose pathname a pattern
    of [config.matcher] matches from its first to its last character. *)
Definition runs_on (pathname : string) : bool := full_match matcher (codes pathname).

(** What the lookahead rules out, said without a pattern: the part of the
    pathname after the first slash begins with one of five words or ends
    with a dot and an image extension. *)
Definition excluded (rest : list N) : Prop :=
  codes "_next/static" `prefix_of` rest ∨
  codes "_next/image" `prefix_of` rest ∨
  (∃ c, line_terminator c = false ∧ (codes "favicon" ++ c :: codes "ico")%list `prefix_of` rest) ∨
  codes "login" `prefix_of` rest ∨
  codes "register" `prefix_of` rest ∨
  (∃ ext, ext ∈ image_extensions ∧ (codes "." ++ codes ext)%list `suffix_of` rest).

End Matcher.

(** ** [src/lib/utils.ts]: the sanitizers *)

Module Sanitize.
Import Regex.
Local Open Scope string_scope.

(** [/<[^>]*>/g] *)
Definition tag : regex :=
  Seq (lit "<") (Seq (Star (Chr (λ c, negb (c =? 62)%N))) (lit ">")).

(** [/(javascript:|data:)/gi] *)
Definition protocol : regex := Alt (lit_i "javascript:") (lit_i "data:").

(** [/[\u0000-\u001F\u007F]/g] *)
Definition control (c : N) : bool := ((c <=? 31) || (c =? 127))%N.
Definition control_char : regex := Chr control.

(** White space and line terminators, the code units that
    [String.prototype.trim] removes from both ends. *)
Definition white (c : N) : bool :=
  ((9 <=? c) && (c <=? 13) || (c =? 32) || (c =? 160) || (c =? 5760) ||
   (8192 <=? c) && (c <=? 8202) || (c =? 8232) || (c =? 8233) || (c =? 8239) ||
   (c =? 8287) || (c =? 12288) || (c =? 65279))%N.

Fixpoint trimStart (s : list N) : list N :=
  match s with
  | c :: s' => if white c then trimStart s' else s
  | [] => []
  end.

Fixpoint trimEnd (s : list N) : list N :=
  match s with
  | c :: s' =>
      match trimEnd s' with
      | [] => if white c then [] else [c]
      | kept => c :: kept
      end
  | [] => []
  end.

Definition js_trim (s : list N) : list N := trimEnd (trimStart s).

(** [sanitizeText(input)]; [None] stands for [null] and [undefined], which
    the callers can pass in spite of the declared type. *)
Definition sanitizeText (input : option (list N)) : list N :=
  match input with
  | None | Some [] => []
  | Some input =>
      let withoutTags := replace_empty tag input in
      let withoutProtocols := replace_empty protocol withoutTags in
      let withoutControlChars := replace_empty control_char withoutProtocols in
      js_trim withoutControlChars
  end.

(** [sanitizeStringArray(inputs)]; [None] stands for a value that is not an
    array.  [filter(Boolean)] keeps the non-empty strings. *)
Definition sanitizeStringArray (inputs : option (list (list N))) : list (list N) :=
  match inputs with
  | None => []
  | Some inputs =>
      filter (λ s, s ≠ []) (js_trim <$> ((λ s, sanitizeText (Some s)) <$> inputs))
  end.

(** Text as the sanitizers leave it when they keep it: not empty, no ["<"]
    with a [">"] after it, no control character, no white space at either
    end. *)
Definition clean (s : list N) : Prop :=
  s ≠ [] ∧ ¬ sublist (codes "<>") s ∧ Forall (λ c, control c = false) s ∧ js_trim s = s.

End Sanitize.

(** ** [src/lib/supabase/middleware.ts]: [updateSession] *)

Module Session.
Import Middleware.
Local Open Scope string_scope.

(** What [supabase.auth.getUser()] does as seen from [updateSession]: it
    calls the [setAll] callback any number of times, each time with a batch
    of cookies (name and value; the options are not represented), and
    yields the user's id or [null].  [request.cookies] and the request that
    [NextResponse.next] carries along are not represented. *)
Record AuthOutcome : Type := mkAuth {
  batches : list (list (string * string));
  user : option string
}.

(** [s.startsWith(prefix)] *)
Definition startsWith (s prefix : string) : bool := String.prefix prefix s.

Section WithAuth.
Context {World : Type}.
Variable getUser : NextRequest → World → AuthOutcome * World.

(** [supabaseResponse] starts as a plain [NextResponse.next] and is replaced
    on every [setAll] by a new one holding that batch. *)
Definition updateSession (request : NextRequest) (w : World) : NextResponse * World :=
  let '(out, w') := getUser request w in
  let supabaseResponse := Next (default [] (last (batches out))) in
  if negb (bool_decide (is_Some (user out))) &&
     negb (startsWith (pathname request) "/login") &&
     negb (startsWith (pathname request) "/auth")
  then (Redirect "/login", w')
  else (supabaseResponse, w').
End WithAuth.

End Session.

(** ** Requests served one after the other *)

Module Pipeline.
Import Limiter Middleware.

(** The limiter calls that a sequence of requests gives rise to. *)
Definition limiter_calls (reqs : list (NextRequest * Z)) : list call :=
  (λ rt : NextRequest * Z, (clientIp rt.1, rt.2)) <$>
  filter (λ rt : NextRequest * Z, isProtectedPath rt.1 = true) reqs.

Section WithSession.
Context {World : Type}.
Variable updateSession : NextRequest → World → NextResponse * World.

Fixpoint serve (reqs : list (NextRequest * Z)) (σ : Store) (w : World)
  : list NextResponse * Store * World :=
  match reqs with
  | [] => ([], σ, w)
  | (request, now) :: reqs' =>
      let '(resp, σ1, w1) := middleware updateSession request now σ w in
      let '(resps, σ2, w2) := serve reqs' σ1 w1 in
      (resp :: resps, σ2, w2)
  end.

(** The responses given to the checked requests of the client [k]. *)
Fixpoint responses_for (k : string) (reqs : list (NextRequest * Z)) (σ : Store) (w : World)
  : list NextResponse :=
  match reqs with
  | [] => []
  | (request, now) :: reqs' =>
      let '(resp, σ1, w1) := middleware updateSession request now σ w in
      if isProtectedPath request && bool_decide (clientIp request = k)
      then resp :: responses_for k reqs' σ1 w1
      else responses_for k reqs' σ1 w1
  end.
End WithSession.

End Pipeline.

(** ** The poll actions: [createPoll] and [updatePoll] *)

Module Polls.
Import Regex Sanitize.
Local Open Scope string_scope.

(** A [FormData] with text fields: the entries in order. *)
Definition FormData : Type := list (string * list N).

(** [formData.get(name)]: the first value under [name], or [null]. *)
Definition fd_get (formData : FormData) (name : string) : option (list N) :=
  head (filter (λ e : string * list N, e.1 = name) formData).*2.

(** [formData.getAll(name)] *)
Definition fd_getAll (formData : FormData) (name : string) : list (list N) :=
  (filter (λ e : string * list N, e.1 = name) formData).*2.

Record PollRow : Type := mkPoll {
  user_id : string;
  question : list N;
  options : list (list N)
}.

(** A server action as the tree of what it asks of the outside and what it
    does with each answer; [R] is what it returns.  [GetUser] is answered
    with the user's id or [null] and the message of the error or [null];
    the writes to the database are answered with the message of [error] or
    [null]; [SelectPoll], the query for one row by id, is answered with
    either the row or the message of the error. *)
Inductive Action (R : Type) : Type :=
  | Return (result : R)
  | CreateClient (k : Action R)
  | GetUser (k : option string → option string → Action R)
  | Insert (row : PollRow) (k : option string → Action R)
  | Update (pollId : string) (owner : string) (question : list N)
           (options : list (list N)) (k : option string → Action R)
  | SelectPoll (id : string) (k : PollRow + string → Action R)
  | RevalidatePath (path : string) (k : Action R).
Global Arguments Return {R} _.
Global Arguments CreateClient {R} _.
Global Arguments GetUser {R} _.
Global Arguments Insert {R} _ _.
Global Arguments Update {R} _ _ _ _ _.
Global Arguments SelectPoll {R} _ _.
Global Arguments RevalidatePath {R} _ _.

Definition validation_error : string :=
  "Please provide a question and at least two options.".

Definition createPoll (formData : FormData) : Action (option string) :=
  CreateClient
    (let rawQuestion := fd_get formData "question" in
     let rawOptions := filter (λ s, s ≠ []) (fd_getAll formData "options") in
     let question := sanitizeText rawQuestion in
     let options := sanitizeStringArray (Some rawOptions) in
     if bool_decide (question = []) || (length options <? 2)%nat then
       Return (Some validation_error)
     else
       GetUser (λ user userError,
         match userError with
         | Some message => Return (Some message)
         | None =>
             match user with
             | None => Return (Some "You must be logged in to create a poll.")
             | Some id =>
                 Insert (mkPoll id question options) (λ error,
                   match error with
                   | Some message => Return (Some message)
                   | None => RevalidatePath "/polls" (Return None)
                   end)
             end
         end)).

Definition updatePoll (pollId : string) (formData : FormData) : Action (option string) :=
  CreateClient
    (let rawQuestion := fd_get formData "question" in
     let rawOptions := filter (λ s, s ≠ []) (fd_getAll formData "options") in
     let question := sanitizeText rawQuestion in
     let options := sanitizeStringArray (Some rawOptions) in
     if bool_decide (question = []) || (length options <? 2)%nat then
       Return (Some validation_error)
     else
       GetUser (λ user userError,
         match userError with
         | Some message => Return (Some message)
         | None =>
             match user with
             | None => Return (Some "You must be logged in to update a poll.")
             | Some id =>
                 Update pollId id question options (λ error,
                   match error with
                   | Some message => Return (Some message)
                   | None => Return None
                   end)
             end
         end)).

(** [getPollById(id)]: the result is the pair of [poll] and [error]. *)
Definition getPollById (id : string) : Action (option PollRow * option string) :=
  CreateClient
    (SelectPoll id (λ answer,
       match answer with
       | inr message => Return (None, Some message)
       | inl data =>
           GetUser (λ user _,
             match user with
             | None => Return (None, Some "Not authenticated")
             | Some uid =>
                 if bool_decide (user_id data ≠ uid)
                 then Return (None, Some "Not authorized to access this poll")
                 else Return (Some data, None)
             end)
       end)).

(** The calls made along one execution, in order, and the value returned. *)
Inductive Effect : Type :=
  | DidCreateClient
  | DidGetUser (user userError : option string)
  | DidInsert (row : PollRow)
  | DidUpdate (pollId owner : string) (question : list N) (options : list (list N))
  | DidSelect (id : string) (answer : PollRow + string)
  | DidRevalidate (path : string).

Inductive performs {R : Type} : Action R → list Effect → R → Prop :=
  | performs_return result : performs (Return result) [] result
  | performs_client k es res :
      performs k es res → performs (CreateClient k) (DidCreateClient :: es) res
  | performs_getUser k user userError es res :
      performs (k user userError) es res →
      performs (GetUser k) (DidGetUser user userError :: es) res
  | performs_insert row k error es res :
      performs (k error) es res → performs (Insert row k) (DidInsert row :: es) res
  | performs_update pollId owner q opts k error es res :
      performs (k error) es res →
      performs (Update pollId owner q opts k) (DidUpdate pollId owner q opts :: es) res
  | performs_select id k answer es res :
      performs (k answer) es res →
      performs (SelectPoll id k) (DidSelect id answer :: es) res
  | performs_revalidate path k es res :
      performs k es res → performs (RevalidatePath path k) (DidRevalidate path :: es) res.

(** A form that passes the check of [createPoll] and [updatePoll], said on
    the fields as submitted. *)
Definition valid_form (formData : FormData) : Prop :=
  sanitizeText (fd_get formData "question") ≠ [] ∧
  (2 ≤ length (sanitizeStringArray (Some (fd_getAll formData "options"))))%nat.

End Polls.

(** ** The option fields of [PollCreateForm] *)

Module PollForm.

(** The state made by [useState(["", ""])].  [rendered] is the value of
    [options] in the render whose handlers are in use, which is what the
    body of a handler reads; [live] is the state that the updaters passed
    to [setOptions] have produced since, which is what an updater gets as
    [opts]. *)
Record form : Type := mkForm {
  rendered : list (list N);
  live : list (list N)
}.

Definition initial : form := mkForm [[]; []] [[]; []].

Fixpoint filter_index {A} (keep : nat → bool) (i : nat) (l : list A) : list A :=
  match l with
  | [] => []
  | x :: l' => if keep i then x :: filter_index keep (S i) l' else filter_index keep (S i) l'
  end.

(** The updater that [handleOptionChange(idx, value)] queues. *)
Definition handleOptionChange (idx : nat) (value : list N) (opts : list (list N))
  : list (list N) :=
  imap (λ i opt, if bool_decide (i = idx) then value else opt) opts.

(** The updater that [addOption()] queues. *)
Definition addOption (opts : list (list N)) : list (list N) := opts ++ [[]].

(** [removeOption(idx)]: the test is on [options] of the render the
    handler was created in, the filter is on the state [opts] that the
    updater receives. *)
Definition removeOption (idx : nat) (options opts : list (list N)) : list (list N) :=
  if (2 <? length options)%nat
  then filter_index (λ i, negb (bool_decide (i = idx))) O opts
  else opts.

(** A call of a handler of the current render, or a new render, which
    makes the state reached the one the handlers see. *)
Inductive event : Type :=
  | Change (idx : nat) (value : list N)
  | Add
  | Remove (idx : nat)
  | Render.

Definition handle (e : event) (f : form) : form :=
  match e with
  | Change idx value => mkForm (rendered f) (handleOptionChange idx value (live f))
  | Add => mkForm (rendered f) (addOption (live f))
  | Remove idx => mkForm (rendered f) (removeOption idx (rendered f) (live f))
  | Render => mkForm (live f) (live f)
  end.

Definition after (es : list event) : form := foldl (λ f e, handle e f) initial es.

(** The same events with a render after each of them. *)
Definition each_rendered (es : list event) : list event := es ≫= λ e, [e; Render].

End PollForm.

(** * Properties *)

Import Limiter Middleware.

(** ** The store: allocation, mutation through a reference, and the map *)

Section StoreFacts.
Implicit Types (σ : Store) (k ip : string) (l : loc) (r : HitRecord).

Lemma alloc_fresh σ : objects σ !! alloc σ = None.
Proof.
  unfold alloc. apply not_elem_of_dom. apply is_fresh.
Qed.

Lemma alloc_not_referenced σ k l :
  wf σ → ipHits σ !! k = Some l → l ≠ alloc σ.
Proof.
  intros [Hal _] Hk ->. apply Hal in Hk as [r Hr].
  rewrite alloc_fresh in Hr. discriminate.
Qed.

Lemma record_of_new_window σ k now :
  record_of (new_window k now σ) k = Some (mkHit 1 (now + RATE_LIMIT_WINDOW_MS)).
Proof.
  unfold record_of, new_window, map_set, deref. cbn.
  rewrite lookup_insert_eq. cbn. by rewrite lookup_insert_eq.
Qed.

Lemma record_of_new_window_other σ k k' now :
  wf σ → k' ≠ k → record_of (new_window k now σ) k' = record_of σ k'.
Proof.
  intros Hwf Hne. unfold record_of, new_window, map_set, deref. cbn.
  rewrite lookup_insert_ne by done.
  destruct (ipHits σ !! k') as [l|] eqn:Hk'; cbn; [|done].
  rewrite lookup_insert_ne; [done|].
  intros <-. by eapply alloc_not_referenced.
Qed.

Lemma record_of_bump σ k l r :
  ipHits σ !! k = Some l → objects σ !! l = Some r →
  record_of (bump l σ) k = Some (mkHit (count r + 1) (resetAt r)).
Proof.
  intros Hk Hl. unfold record_of, bump, deref. cbn. rewrite Hk. cbn.
  rewrite lookup_alter_eq, Hl. done.
Qed.

Lemma record_of_bump_other σ k k' l :
  wf σ → ipHits σ !! k = Some l → k' ≠ k →
  record_of (bump l σ) k' = record_of σ k'.
Proof.
  intros [_ Hinj] Hk Hne. unfold record_of, bump, deref. cbn.
  destruct (ipHits σ !! k') as [l'|] eqn:Hk'; cbn; [|done].
  rewrite lookup_alter_ne; [done|].
  intros <-. apply Hne. by eapply Hinj.
Qed.

(** [ipHits.set(ip, record)] with the reference just read changes nothing. *)
Lemma map_set_same_ref σ k l : ipHits σ !! k = Some l → map_set k l σ = σ.
Proof.
  intros Hk. unfold map_set. destruct σ as [o m]. cbn in *.
  f_equal. by apply insert_id.
Qed.

Lemma map_set_bump σ k l :
  ipHits σ !! k = Some l → map_set k l (bump l σ) = bump l σ.
Proof. intros Hk. by apply map_set_same_ref. Qed.

Lemma wf_init : wf init.
Proof. split; intros *; cbn; by rewrite lookup_empty. Qed.

Lemma wf_new_window σ k now : wf σ → wf (new_window k now σ).
Proof.
  intros Hwf. pose proof Hwf as [Hal Hinj]. split; cbn.
  - intros k0 l0. rewrite lookup_insert. case_decide as Hk.
    + intros [= <-]. rewrite lookup_insert_eq. eauto.
    + intros Hk0. rewrite lookup_insert_ne; [by eapply Hal|].
      intros <-. by eapply alloc_not_referenced.
  - intros k1 k2 l0. rewrite !lookup_insert.
    repeat case_decide; subst; try done.
    + intros [= <-] H2. by destruct (alloc_not_referenced _ _ _ Hwf H2).
    + intros H1 [= <-]. by destruct (alloc_not_referenced _ _ _ Hwf H1).
    + apply Hinj.
Qed.

Lemma wf_bump σ l : wf σ → wf (bump l σ).
Proof.
  intros [Hal Hinj]. split; cbn; [|done].
  intros k0 l0 Hk0. destruct (Hal _ _ Hk0) as [r Hr].
  rewrite lookup_alter. case_decide; subst; rewrite Hr; cbn; eauto.
Qed.
End StoreFacts.

(** ** One call *)

Section OneCall.
Implicit Types (σ : Store) (k ip : string) (r : HitRecord) (now : Z).

(** On its own key a call acts as [step_rec] on the record read. *)
Lemma isRateLimited_own σ k now :
  (isRateLimited k now σ).1 = (step_rec (record_of σ k) now).1 ∧
  record_of (isRateLimited k now σ).2 k = Some (step_rec (record_of σ k) now).2.
Proof.
  assert (record_of σ k = ipHits σ !! k ≫= deref σ) as Hrec by done.
  unfold isRateLimited.
  destruct (ipHits σ !! k) as [l|] eqn:Hk; cbn in Hrec; rewrite Hrec;
    [|split; [done | apply record_of_new_window]].
  destruct (deref σ l) as [r|] eqn:Hl; cbn;
    [|split; [done | apply record_of_new_window]].
  destruct (resetAt r <? now); cbn;
    [split; [done | apply record_of_new_window]|].
  destruct (RATE_LIMIT_MAX <? count r + 1); cbn; (split; [done|]).
  - by apply record_of_bump.
  - rewrite map_set_bump by done. by apply record_of_bump.
Qed.

(** A call later than [resetAt] opens a new window. *)
Lemma isRateLimited_after_reset σ k r now :
  record_of σ k = Some r → resetAt r < now →
  (isRateLimited k now σ).1 = false ∧
  record_of (isRateLimited k now σ).2 k = Some (mkHit 1 (now + RATE_LIMIT_WINDOW_MS)).
Proof.
  intros Hr Hlate. destruct (isRateLimited_own σ k now) as [-> ->].
  rewrite Hr. cbn. destruct (Z.ltb_spec (resetAt r) now); [done | lia].
Qed.

Lemma isRateLimited_other σ k k' now :
  wf σ → k' ≠ k → record_of (isRateLimited k now σ).2 k' = record_of σ k'.
Proof.
  intros Hwf Hne. unfold isRateLimited.
  destruct (ipHits σ !! k) as [l|] eqn:Hk; cbn;
    [|by apply record_of_new_window_other].
  destruct (deref σ l) as [r|]; cbn; [|by apply record_of_new_window_other].
  destruct (resetAt r <? now); cbn; [by apply record_of_new_window_other|].
  destruct (RATE_LIMIT_MAX <? count r + 1); cbn.
  - by eapply record_of_bump_other.
  - rewrite map_set_bump by done. by eapply record_of_bump_other.
Qed.

Lemma wf_isRateLimited σ k now : wf σ → wf (isRateLimited k now σ).2.
Proof.
  intros Hwf. unfold isRateLimited.
  destruct (ipHits σ !! k) as [l|] eqn:Hk; cbn; [|by apply wf_new_window].
  destruct (deref σ l) as [r|]; cbn; [|by apply wf_new_window].
  destruct (resetAt r <? now); cbn; [by apply wf_new_window|].
  destruct (RATE_LIMIT_MAX <? count r + 1); cbn.
  - by apply wf_bump.
  - rewrite map_set_bump by done. by apply wf_bump.
Qed.

(** The keys of the map after a call: the old ones and the caller's. *)
Lemma dom_isRateLimited σ k now :
  dom (ipHits (isRateLimited k now σ).2) = {[k]} ∪ dom (ipHits σ).
Proof.
  unfold isRateLimited.
  destruct (ipHits σ !! k) as [l|] eqn:Hk; cbn; [|by rewrite dom_insert_L].
  assert (dom (ipHits σ) = {[k]} ∪ dom (ipHits σ)) as Hin.
  { apply elem_of_dom_2 in Hk. apply set_eq. intros k'.
    rewrite elem_of_union, elem_of_singleton.
    split; [by right | by intros [-> | ?]]. }
  destruct (deref σ l) as [r|]; cbn; [|by rewrite dom_insert_L].
  destruct (resetAt r <? now); cbn; [by rewrite dom_insert_L|].
  destruct (RATE_LIMIT_MAX <? count r + 1); cbn; [done|].
  by rewrite dom_insert_L, <- Hin.
Qed.
End OneCall.

(** ** Sequences of calls *)

Section Runs.
Implicit Types (σ : Store) (k : string) (cs : list call) (ts : list Z).

Lemma final_nil σ : final [] σ = σ.
Proof. done. Qed.

Lemma final_cons k now cs σ :
  final ((k, now) :: cs) σ = final cs (isRateLimited k now σ).2.
Proof.
  unfold final. cbn. destruct (isRateLimited k now σ) as [b σ1]. cbn.
  by destruct (run cs σ1).
Qed.

Lemma final_app cs1 cs2 σ : final (cs1 ++ cs2) σ = final cs2 (final cs1 σ).
Proof.
  revert σ. induction cs1 as [|[k now] cs1 IH]; intros σ; [done|].
  cbn [app]. by rewrite !final_cons, IH.
Qed.

Lemma wf_final cs σ : wf σ → wf (final cs σ).
Proof.
  revert σ. induction cs as [|[k now] cs IH]; intros σ Hwf; [done|].
  rewrite final_cons. by apply IH, wf_isRateLimited.
Qed.

Lemma wf_reachable σ : reachable σ → wf σ.
Proof. intros [cs ->]. apply wf_final, wf_init. Qed.

Lemma reachable_init : reachable init.
Proof. by exists []. Qed.

Lemma reachable_final cs σ : reachable σ → reachable (final cs σ).
Proof. intros [cs0 ->]. exists (cs0 ++ cs). by rewrite final_app. Qed.

Lemma times_for_cons_eq k now cs : times_for k ((k, now) :: cs) = now :: times_for k cs.
Proof. unfold times_for. by rewrite filter_cons_True. Qed.

Lemma times_for_cons_ne k k' now cs :
  k' ≠ k → times_for k ((k', now) :: cs) = times_for k cs.
Proof. intros Hne. unfold times_for. by rewrite filter_cons_False. Qed.

(** What happens to key [k] along a run is the replay of the calls made
    for [k] on the record [k] had at the start; the calls made for other
    keys drop out. *)
Lemma run_projects k cs σ :
  wf σ →
  decisions_for k cs σ = (replay (record_of σ k) (times_for k cs)).1 ∧
  record_of (final cs σ) k = (replay (record_of σ k) (times_for k cs)).2.
Proof.
  revert σ. induction cs as [|[k' now] cs IH]; intros σ Hwf; [done|].
  rewrite final_cons. cbn [decisions_for].
  pose proof (wf_isRateLimited σ k' now Hwf) as Hwf1.
  destruct (IH _ Hwf1) as [IHd IHr].
  destruct (isRateLimited k' now σ) as [b σ1] eqn:Hcall.
  case_decide as Hk; cbn [snd] in *.
  - subst k'. rewrite times_for_cons_eq. cbn [replay].
    pose proof (isRateLimited_own σ k now) as [Hb Hr].
    rewrite Hcall in Hb, Hr. cbn in Hb, Hr.
    destruct (step_rec (record_of σ k) now) as [b' r'] eqn:Hstep. cbn in Hb, Hr.
    rewrite Hr in IHd, IHr. subst b'.
    destruct (replay (Some r') (times_for k cs)) as [bs o']. cbn in *.
    by rewrite IHd, IHr.
  - rewrite times_for_cons_ne by done.
    pose proof (isRateLimited_other σ k' k now Hwf) as Ho.
    rewrite Hcall in Ho. cbn in Ho. rewrite Ho in IHd, IHr by congruence.
    done.
Qed.
End Runs.

(** ** One key, one window *)

Section Replay.
Implicit Types (r : HitRecord) (ts : list Z) (o : option HitRecord).

Lemma replay_cons o t ts :
  replay o (t :: ts) =
  ((step_rec o t).1 :: (replay (Some (step_rec o t).2) ts).1,
   (replay (Some (step_rec o t).2) ts).2).
Proof.
  cbn. destruct (step_rec o t) as [b r]. cbn.
  by destruct (replay (Some r) ts).
Qed.

Lemma step_rec_expired o now :
  expired o now = true →
  step_rec o now = (false, mkHit 1 (now + RATE_LIMIT_WINDOW_MS)).
Proof. destruct o as [r|]; cbn; [intros -> |]; done. Qed.

Lemma step_rec_live r now :
  now ≤ resetAt r →
  step_rec (Some r) now =
  (RATE_LIMIT_MAX <? count r + 1, mkHit (count r + 1) (resetAt r)).
Proof.
  intros Hle. cbn. destruct (Z.ltb_spec (resetAt r) now); [lia | done].
Qed.

(** The calls of one window: the record keeps its [resetAt], the count
    goes up by one per call, and the calls are admitted until the count
    has reached [RATE_LIMIT_MAX]. *)
Lemma replay_live ts : ∀ r,
  Forall (λ t, t ≤ resetAt r) ts →
  replay (Some r) ts =
  (replicate (length ts `min` Z.to_nat (RATE_LIMIT_MAX - count r)) false ++
   replicate (length ts - Z.to_nat (RATE_LIMIT_MAX - count r)) true,
   Some (mkHit (count r + Z.of_nat (length ts)) (resetAt r))).
Proof.
  induction ts as [|t ts IH]; intros r Hall.
  - cbn. destruct r as [c e]. cbn. do 3 f_equal. lia.
  - apply Forall_cons in Hall as [Ht Hall].
    rewrite replay_cons, step_rec_live by done. cbn [fst snd].
    rewrite IH by done. cbn [fst snd count resetAt length].
    f_equal; [|do 2 f_equal; lia].
    destruct (Z.ltb_spec RATE_LIMIT_MAX (count r + 1)) as [Hover|Hunder].
    + replace (Z.to_nat (RATE_LIMIT_MAX - count r)) with 0%nat by lia.
      replace (Z.to_nat (RATE_LIMIT_MAX - (count r + 1))) with 0%nat by lia.
      rewrite !Nat.min_0_r, !Nat.sub_0_r. done.
    + replace (Z.to_nat (RATE_LIMIT_MAX - count r))
        with (S (Z.to_nat (RATE_LIMIT_MAX - (count r + 1)))) by lia.
      done.
Qed.

(** A window opened at [t0] on an expired or missing record. *)
Lemma replay_fresh o t0 ts :
  expired o t0 = true →
  Forall (λ t, t ≤ t0 + RATE_LIMIT_WINDOW_MS) ts →
  replay o (t0 :: ts) =
  (replicate (S (length ts) `min` 10) false ++ replicate (S (length ts) - 10) true,
   Some (mkHit (1 + Z.of_nat (length ts)) (t0 + RATE_LIMIT_WINDOW_MS))).
Proof.
  intros Hexp Hall. rewrite replay_cons, step_rec_expired by done. cbn [fst snd].
  rewrite replay_live by done. cbn [fst snd count resetAt].
  change (Z.to_nat (RATE_LIMIT_MAX - 1)) with 9%nat. done.
Qed.

Lemma times_for_replicate k t n : times_for k (replicate n (k, t)) = replicate n t.
Proof.
  induction n as [|n IH]; [done|].
  cbn [replicate]. by rewrite times_for_cons_eq, IH.
Qed.

Lemma times_for_app k cs1 cs2 :
  times_for k (cs1 ++ cs2) = times_for k cs1 ++ times_for k cs2.
Proof. unfold times_for. by rewrite filter_app, fmap_app. Qed.

Lemma times_for_calls_for k cs : times_for k (calls_for k cs) = times_for k cs.
Proof.
  unfold times_for, calls_for. f_equal.
  induction cs as [|c cs IH]; [done|].
  destruct (decide (c.1 = k)) as [Hc|Hc].
  - rewrite !filter_cons_True by done. by rewrite IH.
  - by rewrite !filter_cons_False.
Qed.

Lemma times_for_Forall k cs (P : Z → Prop) :
  (∀ t, (k, t) ∈ cs → P t) → Forall P (times_for k cs).
Proof.
  intros Hall. apply Forall_forall. intros t Ht. apply Hall.
  unfold times_for in Ht. apply list_elem_of_fmap in Ht as [[k' t'] [-> Hin]].
  apply list_elem_of_filter in Hin as [Hk Hin]. cbn in Hk. by subst k'.
Qed.
End Replay.

(** ** The limiter's contract *)

Section Contract.
Implicit Types (σ : Store) (k : string) (cs : list call) (r : HitRecord).

(** The results of the calls of one window, opened at [t0] by a call that
    found no live record. *)
Lemma decisions_fresh_window σ k t0 cs :
  wf σ →
  expired (record_of σ k) t0 = true →
  (∀ t, (k, t) ∈ cs → t ≤ t0 + RATE_LIMIT_WINDOW_MS) →
  decisions_for k ((k, t0) :: cs) σ
  = replicate (S (length (times_for k cs)) `min` 10) false ++
    replicate (S (length (times_for k cs)) - 10) true.
Proof.
  intros Hwf Hexp Hwin. destruct (run_projects k ((k, t0) :: cs) σ) as [-> _]; [done|].
  rewrite times_for_cons_eq, replay_fresh; [done..|].
  by apply times_for_Forall.
Qed.

Lemma filter_replicate_keep {A} (P : A → Prop) `{!∀ x, Decision (P x)} x n :
  P x → filter P (replicate n x) = replicate n x.
Proof.
  intros Hx. induction n as [|n IH]; [done|].
  cbn [replicate]. by rewrite filter_cons_True, IH.
Qed.

Lemma filter_replicate_drop {A} (P : A → Prop) `{!∀ x, Decision (P x)} x n :
  ¬ P x → filter P (replicate n x) = [].
Proof.
  intros Hx. induction n as [|n IH]; [done|].
  cbn [replicate]. by rewrite filter_cons_False.
Qed.

(** Calls made one after the other in one window: however many there are,
    10 of them at most are admitted and all the others are rejected. *)
Lemma serial_calls_admissions σ k t0 cs :
  reachable σ →
  expired (record_of σ k) t0 = true →
  (∀ t, (k, t) ∈ cs → t ≤ t0 + RATE_LIMIT_WINDOW_MS) →
  let n := S (length (times_for k cs)) in
  let ds := decisions_for k ((k, t0) :: cs) σ in
  length (filter (λ b, b = false) ds) = (n `min` 10)%nat ∧
  length (filter (λ b, b = true) ds) = (n - 10)%nat.
Proof.
  intros Hreach Hexp Hwin n ds. subst ds.
  rewrite decisions_fresh_window by (done || by apply wf_reachable).
  fold n. rewrite !filter_app.
  rewrite (filter_replicate_keep (λ b, b = false)) by done.
  rewrite (filter_replicate_drop (λ b, b = false)) by done.
  rewrite (filter_replicate_drop (λ b, b = true)) by done.
  rewrite (filter_replicate_keep (λ b, b = true)) by done.
  rewrite app_nil_r, app_nil_l, !length_replicate. done.
Qed.

(** C1.  A key with no record, or with a record whose window has expired
    ([resetAt] before the time of the call), opens a window at [t0].  Of
    the calls made for it at times up to [t0 + RATE_LIMIT_WINDOW_MS],
    whatever calls for other keys come in between, the first 10 (the
    opening call included) return [false] (admit) and every later one
    returns [true] (reject): the 11th is the first rejection. *)
Theorem admit_up_to_limit σ k t0 cs :
  reachable σ →
  expired (record_of σ k) t0 = true →
  (∀ t, (k, t) ∈ cs → t ≤ t0 + RATE_LIMIT_WINDOW_MS) →
  let n := S (length (times_for k cs)) in
  let ds := decisions_for k ((k, t0) :: cs) σ in
  RATE_LIMIT_MAX = 10 ∧
  ds = replicate (n `min` 10) false ++ replicate (n - 10) true ∧
  (∀ i, (i < 10)%nat → (i < n)%nat → ds !! i = Some false) ∧
  ((10 < n)%nat → ds !! 10%nat = Some true).
Proof.
  intros Hreach Hexp Hwin n ds.
  assert (ds = replicate (n `min` 10) false ++ replicate (n - 10) true) as Hds.
  { subst ds n. apply decisions_fresh_window; [by apply wf_reachable | done..]. }
  split; [done|]. split; [done|]. rewrite Hds. split.
  - intros i Hi Hn. rewrite lookup_app_l by (rewrite length_replicate; lia).
    apply lookup_replicate_2. lia.
  - intros Hn. rewrite lookup_app_r by (rewrite length_replicate; lia).
    rewrite length_replicate. apply lookup_replicate_2. lia.
Qed.

Lemma admit_up_to_limit_witness :
  decisions_for "1.2.3.4" (replicate 12 ("1.2.3.4"%string, 0)) init
  = replicate 10 false ++ replicate 2 true.
Proof.
  refine (proj1 (proj2 (admit_up_to_limit init "1.2.3.4" 0
    (replicate 11 ("1.2.3.4"%string, 0)) reachable_init _ _))).
  - reflexivity.
  - intros t Ht. apply elem_of_replicate in Ht as [[= <-] _].
    unfold RATE_LIMIT_WINDOW_MS. lia.
Defined.

(** C2.  The scenario of the specification: eleven calls at time 0 leave
    the record at count 11 with [resetAt = 60000]; the call made at
    exactly 60000 is rejected and counted in the same window. *)
Lemma call_at_resetAt_counterexample :
  let σ := final (replicate 11 ("1.2.3.4"%string, 0)) init in
  record_of σ "1.2.3.4" = Some (mkHit 11 60000) ∧
  (isRateLimited "1.2.3.4" 60000 σ).1 = true ∧
  record_of (isRateLimited "1.2.3.4" 60000 σ).2 "1.2.3.4" = Some (mkHit 12 60000) ∧
  record_of (isRateLimited "1.2.3.4" 60000 σ).2 "1.2.3.4"
    ≠ Some (mkHit 1 (60000 + RATE_LIMIT_WINDOW_MS)).
Proof. vm_compute. repeat split; discriminate. Qed.

(** C2, amended.  The expiry test is [resetAt < now], strict.  A call made
    at exactly [resetAt] still belongs to the running window: the count
    goes up by one, [resetAt] stays, and the call is admitted exactly when
    the new count is at most [RATE_LIMIT_MAX].  Any call made later than
    [resetAt] opens a new window with count 1, whatever the old count. *)
Theorem call_at_resetAt σ k r :
  record_of σ k = Some r →
  ((isRateLimited k (resetAt r) σ).1 = (RATE_LIMIT_MAX <? count r + 1) ∧
   record_of (isRateLimited k (resetAt r) σ).2 k
     = Some (mkHit (count r + 1) (resetAt r))) ∧
  (∀ now, resetAt r < now →
     (isRateLimited k now σ).1 = false ∧
     record_of (isRateLimited k now σ).2 k
       = Some (mkHit 1 (now + RATE_LIMIT_WINDOW_MS))).
Proof.
  intros Hr. split.
  - destruct (isRateLimited_own σ k (resetAt r)) as [-> ->].
    rewrite Hr, step_rec_live by lia. done.
  - intros now Hlate. destruct (isRateLimited_own σ k now) as [-> ->].
    rewrite Hr, step_rec_expired; [done|]. cbn. lia.
Qed.

Lemma call_at_resetAt_witness :
  (isRateLimited "1.2.3.4" 60000 (final [("1.2.3.4"%string, 0)] init)).1 = false ∧
  record_of (isRateLimited "1.2.3.4" 60000 (final [("1.2.3.4"%string, 0)] init)).2
    "1.2.3.4" = Some (mkHit 2 60000).
Proof.
  exact (proj1 (call_at_resetAt (final [("1.2.3.4"%string, 0)] init) "1.2.3.4"
                  (mkHit 1 60000) eq_refl)).
Defined.

(** C3.  A window for [k] is opened at [t0] and any number of calls follow
    in it (for [k] at times up to [t0 + RATE_LIMIT_WINDOW_MS], rejected
    ones included, and for other keys at any time).  A call for [k] made
    more than [RATE_LIMIT_WINDOW_MS] after [t0] is admitted and leaves the
    record at count 1 in a window of its own. *)
Theorem window_reset σ k t0 cs now :
  reachable σ →
  expired (record_of σ k) t0 = true →
  (∀ t, (k, t) ∈ cs → t ≤ t0 + RATE_LIMIT_WINDOW_MS) →
  RATE_LIMIT_WINDOW_MS < now - t0 →
  let σ' := final ((k, t0) :: cs) σ in
  record_of σ' k
    = Some (mkHit (1 + Z.of_nat (length (times_for k cs))) (t0 + RATE_LIMIT_WINDOW_MS)) ∧
  (isRateLimited k now σ').1 = false ∧
  record_of (isRateLimited k now σ').2 k = Some (mkHit 1 (now + RATE_LIMIT_WINDOW_MS)).
Proof.
  intros Hreach Hexp Hwin Hlate σ'.
  assert (record_of σ' k
    = Some (mkHit (1 + Z.of_nat (length (times_for k cs))) (t0 + RATE_LIMIT_WINDOW_MS)))
    as Hrec.
  { subst σ'. destruct (run_projects k ((k, t0) :: cs) σ) as [_ ->];
      [by apply wf_reachable|].
    rewrite times_for_cons_eq, replay_fresh; [done..|].
    by apply times_for_Forall. }
  split; [done|].
  apply (isRateLimited_after_reset _ _ _ _ Hrec). cbn. lia.
Qed.

Lemma window_reset_witness :
  (isRateLimited "1.2.3.4" 60001 (final (replicate 15 ("1.2.3.4"%string, 0)) init)).1
    = false ∧
  record_of
    (isRateLimited "1.2.3.4" 60001 (final (replicate 15 ("1.2.3.4"%string, 0)) init)).2
    "1.2.3.4" = Some (mkHit 1 120001).
Proof.
  refine (proj2 (window_reset init "1.2.3.4" 0 (replicate 14 ("1.2.3.4"%string, 0))
                   60001 reachable_init _ _ _)).
  - reflexivity.
  - intros t Ht. apply elem_of_replicate in Ht as [[= <-] _].
    unfold RATE_LIMIT_WINDOW_MS. lia.
  - unfold RATE_LIMIT_WINDOW_MS. lia.
Defined.

(** C4.  After a rejected call for [k], every later call for [k] made no
    later than the [resetAt] of its record is rejected as well, and each
    of them still adds exactly one to the stored count, which so exceeds
    any bound; [resetAt] does not move. *)
Theorem rejection_persists σ k now :
  reachable σ →
  (isRateLimited k now σ).1 = true →
  let σ1 := (isRateLimited k now σ).2 in
  ∃ r1, record_of σ1 k = Some r1 ∧ RATE_LIMIT_MAX < count r1 ∧
    (∀ cs, (∀ t, (k, t) ∈ cs → t ≤ resetAt r1) →
       decisions_for k cs σ1 = replicate (length (times_for k cs)) true ∧
       record_of (final cs σ1) k
         = Some (mkHit (count r1 + Z.of_nat (length (times_for k cs))) (resetAt r1))) ∧
    (∀ bound, ∃ cs r', (∀ t, (k, t) ∈ cs → t ≤ resetAt r1) ∧
       record_of (final cs σ1) k = Some r' ∧ bound < count r').
Proof.
  intros Hreach Hrej σ1.
  pose proof (wf_isRateLimited σ k now (wf_reachable _ Hreach)) as Hwf1.
  destruct (isRateLimited_own σ k now) as [Hb Hr]. fold σ1 in Hr.
  rewrite Hrej in Hb.
  set (r1 := (step_rec (record_of σ k) now).2) in *.
  assert (RATE_LIMIT_MAX < count r1) as Hover.
  { subst r1. destruct (record_of σ k) as [r|]; cbn in Hb |- *; [|done].
    destruct (resetAt r <? now); cbn in Hb |- *; [done|].
    by apply Z.ltb_lt. }
  assert (∀ cs, (∀ t, (k, t) ∈ cs → t ≤ resetAt r1) →
    decisions_for k cs σ1 = replicate (length (times_for k cs)) true ∧
    record_of (final cs σ1) k
      = Some (mkHit (count r1 + Z.of_nat (length (times_for k cs))) (resetAt r1)))
    as Hrun.
  { intros cs Hwin. destruct (run_projects k cs σ1 Hwf1) as [-> ->].
    rewrite Hr, replay_live by by apply times_for_Forall. cbn [fst snd].
    replace (Z.to_nat (RATE_LIMIT_MAX - count r1)) with 0%nat by lia.
    by rewrite Nat.min_0_r, Nat.sub_0_r. }
  exists r1. split; [done|]. split; [done|]. split; [done|].
  intros bound. set (cs := replicate (Z.to_nat bound) (k, resetAt r1)).
  assert (∀ t, (k, t) ∈ cs → t ≤ resetAt r1) as Hwin.
  { intros t Ht. apply elem_of_replicate in Ht as [[= ->] _]. lia. }
  eexists cs, _. split; [done|]. split; [by apply Hrun|]. cbn.
  subst cs. rewrite times_for_replicate, length_replicate.
  unfold RATE_LIMIT_MAX in Hover. lia.
Qed.

Lemma rejection_persists_witness :
  let σ1 := (isRateLimited "1.2.3.4" 5
               (final (replicate 10 ("1.2.3.4"%string, 0)) init)).2 in
  ∃ r1, record_of σ1 "1.2.3.4" = Some r1 ∧ RATE_LIMIT_MAX < count r1 ∧
    (∀ cs, (∀ t, ("1.2.3.4"%string, t) ∈ cs → t ≤ resetAt r1) →
       decisions_for "1.2.3.4" cs σ1
         = replicate (length (times_for "1.2.3.4" cs)) true ∧
       record_of (final cs σ1) "1.2.3.4"
         = Some (mkHit (count r1 + Z.of_nat (length (times_for "1.2.3.4" cs)))
                       (resetAt r1))) ∧
    (∀ bound, ∃ cs r', (∀ t, ("1.2.3.4"%string, t) ∈ cs → t ≤ resetAt r1) ∧
       record_of (final cs σ1) "1.2.3.4" = Some r' ∧ bound < count r').
Proof.
  apply (rejection_persists (final (replicate 10 ("1.2.3.4"%string, 0)) init)
           "1.2.3.4" 5).
  - apply reachable_final, reachable_init.
  - reflexivity.
Defined.

(** C5.  In a store reached from [init] by the calls [cs], a record held
    for [k] has count at least 1.  The calls split as [cs1], a call
    [(k, t0)] that found [k] without a live record and so opened the
    window, and [cs2], in which every call for [k] fell inside that
    window: [resetAt] is [t0 + RATE_LIMIT_WINDOW_MS] and the count is one
    more than the number of calls for [k] in [cs2].  One further call
    leaves [resetAt] as it is unless it is a call for [k] made after
    [resetAt], which opens the next window. *)
Theorem reachable_record_invariant cs k r :
  record_of (final cs init) k = Some r →
  1 ≤ count r ∧
  (∃ cs1 t0 cs2,
     cs = cs1 ++ (k, t0) :: cs2 ∧
     expired (record_of (final cs1 init) k) t0 = true ∧
     resetAt r = t0 + RATE_LIMIT_WINDOW_MS ∧
     Forall (λ t, t ≤ t0 + RATE_LIMIT_WINDOW_MS) (times_for k cs2) ∧
     count r = 1 + Z.of_nat (length (times_for k cs2))) ∧
  (∀ k' now,
     (k' = k ∧ resetAt r < now) ∨
     ∃ r', record_of (isRateLimited k' now (final cs init)).2 k = Some r' ∧
           resetAt r' = resetAt r).
Proof.
  intros Hr.
  assert (∃ cs1 t0 cs2,
     cs = cs1 ++ (k, t0) :: cs2 ∧
     expired (record_of (final cs1 init) k) t0 = true ∧
     resetAt r = t0 + RATE_LIMIT_WINDOW_MS ∧
     Forall (λ t, t ≤ t0 + RATE_LIMIT_WINDOW_MS) (times_for k cs2) ∧
     count r = 1 + Z.of_nat (length (times_for k cs2))) as Hsplit.
  { revert r Hr. induction cs as [|[k' t] cs IH] using rev_ind; intros r Hr.
    { by cbn in Hr. }
    rewrite final_app, final_cons, final_nil in Hr.
    destruct (decide (k' = k)) as [->|Hne].
    - destruct (isRateLimited_own (final cs init) k t) as [_ Hown].
      rewrite Hown in Hr. injection Hr as <-.
      destruct (expired (record_of (final cs init) k) t) eqn:Hexp.
      + rewrite step_rec_expired by done. exists cs, t, []. by cbn.
      + destruct (record_of (final cs init) k) as [r0|] eqn:Hr0; [|done].
        cbn in Hexp. apply Z.ltb_ge in Hexp.
        destruct (IH r0 eq_refl) as (cs1 & t0 & cs2 & -> & Hopen & Hreset & Hin & Hcount).
        rewrite step_rec_live by done. cbn [snd count resetAt].
        exists cs1, t0, (cs2 ++ [(k, t)]).
        rewrite times_for_app, times_for_cons_eq, length_app.
        change (times_for k []) with (@nil Z). cbn [length].
        split; [by rewrite <- app_assoc|]. split; [done|]. split; [done|].
        split; [|lia].
        apply Forall_app. split; [done|]. apply Forall_singleton. lia.
    - rewrite isRateLimited_other in Hr;
        [|apply wf_final, wf_init | done].
      destruct (IH r Hr) as (cs1 & t0 & cs2 & -> & Hopen & Hreset & Hin & Hcount).
      exists cs1, t0, (cs2 ++ [(k', t)]).
      rewrite times_for_app, times_for_cons_ne by done.
      change (times_for k []) with (@nil Z). rewrite app_nil_r.
      split; [by rewrite <- app_assoc|]. done. }
  split; [|split; [done|]].
  - destruct Hsplit as (_ & _ & cs2 & _ & _ & _ & _ & ->). lia.
  - intros k' now.
    destruct (decide (k' = k)) as [->|Hne].
    + destruct (Z.lt_ge_cases (resetAt r) now) as [Hlate|Hin]; [by left|].
      right. destruct (isRateLimited_own (final cs init) k now) as [_ ->].
      rewrite Hr, step_rec_live by lia. eauto.
    + right. exists r. split; [|done].
      rewrite isRateLimited_other; [done | apply wf_final, wf_init | done].
Qed.

Lemma reachable_record_invariant_witness :
  1 ≤ count (mkHit 3 60007) ∧
  (∃ cs1 t0 cs2,
     [("a"%string, 0); ("b"%string, 7); ("b"%string, 8); ("a"%string, 9);
      ("b"%string, 60007)] = cs1 ++ ("b"%string, t0) :: cs2 ∧
     expired (record_of (final cs1 init) "b") t0 = true ∧
     resetAt (mkHit 3 60007) = t0 + RATE_LIMIT_WINDOW_MS ∧
     Forall (λ t, t ≤ t0 + RATE_LIMIT_WINDOW_MS) (times_for "b" cs2) ∧
     count (mkHit 3 60007) = 1 + Z.of_nat (length (times_for "b" cs2))) ∧
  (∀ k' now,
     (k' = "b"%string ∧ resetAt (mkHit 3 60007) < now) ∨
     ∃ r', record_of
             (isRateLimited k' now
                (final [("a"%string, 0); ("b"%string, 7); ("b"%string, 8);
                        ("a"%string, 9); ("b"%string, 60007)] init)).2 "b"
           = Some r' ∧
           resetAt r' = resetAt (mkHit 3 60007)).
Proof.
  exact (reachable_record_invariant
           [("a"%string, 0); ("b"%string, 7); ("b"%string, 8); ("a"%string, 9);
            ("b"%string, 60007)] "b" (mkHit 3 60007) eq_refl).
Defined.

(** C6.  A call for [A] leaves the map with the keys it had plus [A] and
    changes the record of [A]: where [A] had no record or an expired one it
    now has [{count 1, resetAt now + RATE_LIMIT_WINDOW_MS}], and where it
    had a live one the count of that record has gone up by one, its
    [resetAt] kept.  The record of every other key is as it was.  Along any
    run, the results that the calls for a key [B] get and the record [B]
    ends with are the same as if the calls for all other keys had never
    been made. *)
Theorem key_independence σ A now :
  reachable σ →
  let σ' := (isRateLimited A now σ).2 in
  dom (ipHits σ') = {[A]} ∪ dom (ipHits σ) ∧
  is_Some (record_of σ' A) ∧
  (∀ B, B ≠ A → record_of σ' B = record_of σ B) ∧
  (∀ B cs, B ≠ A →
     decisions_for B cs σ' = decisions_for B cs σ ∧
     record_of (final cs σ') B = record_of (final cs σ) B) ∧
  (∀ B cs,
     decisions_for B cs σ = decisions_for B (calls_for B cs) σ ∧
     record_of (final cs σ) B = record_of (final (calls_for B cs) σ) B) ∧
  record_of σ' A = Some (step_rec (record_of σ A) now).2 ∧
  (expired (record_of σ A) now = true →
     record_of σ' A = Some (mkHit 1 (now + RATE_LIMIT_WINDOW_MS))) ∧
  (∀ r, record_of σ A = Some r → now ≤ resetAt r →
     record_of σ' A = Some (mkHit (count r + 1) (resetAt r))) ∧
  record_of σ' A ≠ record_of σ A.
Proof.
  intros Hreach σ'. pose proof (wf_reachable _ Hreach) as Hwf.
  pose proof (wf_isRateLimited σ A now Hwf) as Hwf'. fold σ' in Hwf'.
  destruct (isRateLimited_own σ A now) as [_ Hown]. fold σ' in Hown.
  split; [apply dom_isRateLimited|].
  split; [by eexists|].
  split; [intros B HB; by apply isRateLimited_other|].
  split.
  { intros B cs HB.
    destruct (run_projects B cs σ' Hwf') as [-> ->].
    destruct (run_projects B cs σ Hwf) as [-> ->].
    subst σ'. by rewrite isRateLimited_other. }
  split.
  { intros B cs.
    destruct (run_projects B cs σ Hwf) as [-> ->].
    destruct (run_projects B (calls_for B cs) σ Hwf) as [-> ->].
    by rewrite times_for_calls_for. }
  split; [done|]. rewrite Hown. split; [|split].
  - intros Hexp. by rewrite step_rec_expired.
  - intros r -> Hlive. by rewrite step_rec_live.
  - destruct (record_of σ A) as [[c e]|]; [|done]. cbn.
    destruct (Z.ltb_spec e now) as [Hlate|Hlive]; cbn.
    + intros [= _ Hreset]. unfold RATE_LIMIT_WINDOW_MS in Hreset. lia.
    + intros [= Hcount]. lia.
Qed.

Lemma key_independence_witness :
  let σ := final (replicate 11 ("1.2.3.4"%string, 0) ++ [("5.6.7.8"%string, 0)]) init in
  record_of (isRateLimited "1.2.3.4" 5 σ).2 "5.6.7.8" = record_of σ "5.6.7.8" ∧
  record_of (isRateLimited "1.2.3.4" 5 σ).2 "1.2.3.4" = Some (mkHit (11 + 1) 60000).
Proof.
  pose proof (key_independence
    (final (replicate 11 ("1.2.3.4"%string, 0) ++ [("5.6.7.8"%string, 0)]) init)
    "1.2.3.4" 5 (reachable_final _ _ reachable_init)) as (_ & _ & Hframe & _ & _ & _ & _ & Hlive & _).
  split.
  - apply Hframe. discriminate.
  - apply (Hlive (mkHit 11 60000)); [reflexivity | cbn; lia].
Defined.
End Contract.

(** ** Strings: [split] and [trim] *)

Section Strings.
Local Open Scope string_scope.
Implicit Types (s e rest : string) (c : ascii).

Lemma split_nonempty sep s : split sep s ≠ [].
Proof.
  destruct s as [|c s]; cbn; [done|].
  destruct (Ascii.eqb c sep); [done|]. by destruct (split sep s).
Qed.

(** The first element of [s.split(',')] is what precedes the first comma. *)
Lemma split_first_whole e :
  no_comma e = true → split "," e !! 0%nat = Some e.
Proof.
  induction e as [|c e IH]; cbn; [done|].
  destruct (Ascii.eqb c ","); cbn; [done|]. intros He.
  specialize (IH He). destruct (split "," e) as [|x xs]; [done|].
  cbn in *. congruence.
Qed.

Lemma split_first_comma e rest :
  no_comma e = true → split "," (e +:+ String "," rest) !! 0%nat = Some e.
Proof.
  induction e as [|c e IH].
  - done.
  - change (String c e +:+ String "," rest)
      with (String c (e +:+ String "," rest)).
    cbn [no_comma split]. destruct (Ascii.eqb c ","); cbn [negb andb]; [done|].
    intros He. specialize (IH He).
    destruct (split "," (e +:+ String "," rest)) as [|x xs]; [done|].
    cbn in *. congruence.
Qed.

Lemma blank_no_comma e : blank e = true → no_comma e = true.
Proof.
  induction e as [|c e IH]; cbn; [done|].
  intros [Hc He]%andb_prop. rewrite IH by done.
  destruct (Ascii.eqb_spec c ","); [by subst c|done].
Qed.

Lemma trim_start_blank e : blank e = true → trim_start e = "".
Proof.
  induction e as [|c e IH]; cbn; [done|].
  intros [-> He]%andb_prop. by apply IH.
Qed.

Lemma trim_blank e : blank e = true → trim e = "".
Proof. intros He. unfold trim. by rewrite trim_start_blank. Qed.

Lemma trim_end_empty s : trim_end s = "" → blank s = true.
Proof.
  induction s as [|c s IH]; cbn; [done|].
  destruct (trim_end s); [|done].
  destruct (is_space c); [|done]. intros _. by apply IH.
Qed.

Lemma blank_trim_start s : blank (trim_start s) = true → blank s = true.
Proof.
  induction s as [|c s IH]; cbn; [done|].
  destruct (is_space c) eqn:Hc; cbn; [done|]. by rewrite Hc.
Qed.

(** A string trims to the empty string exactly when it is blank. *)
Lemma trim_empty_iff s : trim s = "" ↔ blank s = true.
Proof.
  split; [|apply trim_blank].
  intros Hs. by apply blank_trim_start, trim_end_empty.
Qed.
End Strings.

(** ** The middleware's contract *)

Section KeyDerivation.
Local Open Scope string_scope.
Implicit Types (request : NextRequest) (v e rest a : string).

Lemma js_or_lit_nonempty a lit : a ≠ "" → js_or_lit (Some a) lit = a.
Proof. by destruct a. Qed.

Lemma forwarded_first_entry request v e rest :
  headers request !! "x-forwarded-for" = Some v →
  v = e ∨ v = e +:+ String "," rest →
  no_comma e = true →
  forwarded_first request = Some (trim e).
Proof.
  intros Hv Hshape He. unfold forwarded_first. rewrite Hv. cbn.
  destruct Hshape as [-> | ->].
  - by rewrite split_first_whole.
  - by rewrite split_first_comma.
Qed.

(** Without a usable direct address the key comes from the header. *)
Lemma clientIp_no_direct request :
  ip request = None ∨ ip request = Some "" →
  clientIp request = js_or_lit (forwarded_first request) "unknown".
Proof. unfold clientIp, js_or. by intros [-> | ->]. Qed.

(** C9.  With no direct address and a forwarded header whose first entry
    is a single space, the key is the sentinel, where the derivation as
    worded gives the trimmed entry, the empty string. *)
Lemma clientIp_counterexample :
  let request :=
    mkRequest "POST" "/login" None {["x-forwarded-for" := " ,10.0.0.1"]} in
  clientIp request = "unknown" ∧
  spec_clientKey request = "" ∧
  clientIp request ≠ spec_clientKey request.
Proof. vm_compute. repeat split. discriminate. Qed.

(** C9, amended.  The key is the direct address when there is one and it
    is not the empty string.  Otherwise it is the first comma-separated
    entry of the [x-forwarded-for] header, trimmed, when the header is
    there and that entry is not blank; and it is ["unknown"] when there is
    no such header.  Whenever the derivation as worded yields a non-empty
    key, the code yields the same key. *)
Theorem clientIp_derivation request :
  (∀ a, ip request = Some a → a ≠ "" → clientIp request = a) ∧
  (ip request = None ∨ ip request = Some "" →
   ∀ v e rest,
     headers request !! "x-forwarded-for" = Some v →
     v = e ∨ v = e +:+ String "," rest →
     no_comma e = true → blank e = false →
     clientIp request = trim e) ∧
  (ip request = None ∨ ip request = Some "" →
   headers request !! "x-forwarded-for" = None →
   clientIp request = "unknown") ∧
  (spec_clientKey request ≠ "" → clientIp request = spec_clientKey request).
Proof.
  repeat split.
  - intros a Ha Hne. unfold clientIp, js_or. rewrite Ha.
    destruct a; [done|]. done.
  - intros Hip v e rest Hv Hshape Hcomma Hblank.
    rewrite clientIp_no_direct by done.
    erewrite forwarded_first_entry by done.
    apply js_or_lit_nonempty. intros Hempty%trim_empty_iff. congruence.
  - intros Hip Hv. rewrite clientIp_no_direct by done.
    unfold forwarded_first. by rewrite Hv.
  - unfold spec_clientKey. destruct (ip request) as [a|] eqn:Ha.
    + intros Hne. unfold clientIp, js_or. rewrite Ha. by destruct a.
    + rewrite clientIp_no_direct by auto. unfold forwarded_first.
      destruct (headers request !! "x-forwarded-for") as [v|]; cbn; [|done].
      pose proof (split_nonempty "," v) as Hsplit.
      destruct (split "," v) as [|x xs]; [done|]. cbn.
      fold (trim x). by destruct (trim x).
Qed.

Lemma clientIp_derivation_witness :
  clientIp (mkRequest "POST" "/create" (Some "") {["x-forwarded-for" := " 1.2.3.4 , 5.6.7.8"]})
  = trim " 1.2.3.4 ".
Proof.
  refine (proj1 (proj2 (clientIp_derivation
    (mkRequest "POST" "/create" (Some "") {["x-forwarded-for" := " 1.2.3.4 , 5.6.7.8"]})))
    _ " 1.2.3.4 , 5.6.7.8" " 1.2.3.4 " " 5.6.7.8" _ _ _ _).
  - by right.
  - reflexivity.
  - by right.
  - reflexivity.
  - reflexivity.
Defined.

(** C10.  With no direct address, or the empty string for it, and an
    [x-forwarded-for] header whose first comma-separated entry trims to
    the empty string, the key is ["unknown"]. *)
Theorem blank_forwarded_is_unknown request v e rest :
  ip request = None ∨ ip request = Some "" →
  headers request !! "x-forwarded-for" = Some v →
  v = e ∨ v = e +:+ String "," rest →
  no_comma e = true →
  trim e = "" →
  clientIp request = "unknown".
Proof.
  intros Hip Hv Hshape Hcomma Htrim.
  rewrite clientIp_no_direct by done.
  erewrite forwarded_first_entry by done. by rewrite Htrim.
Qed.

Lemma blank_forwarded_is_unknown_witness :
  clientIp (mkRequest "POST" "/login" (Some "") {["x-forwarded-for" := ",10.0.0.1"]})
  = "unknown".
Proof.
  refine (blank_forwarded_is_unknown
    (mkRequest "POST" "/login" (Some "") {["x-forwarded-for" := ",10.0.0.1"]})
    ",10.0.0.1" "" "10.0.0.1" _ _ _ _ _).
  - by right.
  - reflexivity.
  - by right.
  - reflexivity.
  - reflexivity.
Defined.
End KeyDerivation.

Section Gate.
Local Open Scope string_scope.
Context {World : Type}.
Variable updateSession : NextRequest → World → NextResponse * World.
Implicit Types (request : NextRequest) (σ : Store) (w : World).

(** C8.  For a request that is checked, when [isRateLimited] returns
    [true] the middleware answers with status 429 and the body
    ["Too Many Requests"], and [updateSession] has no part in the result:
    the outside world is as it was and any other [updateSession] gives
    the same answer.  When [isRateLimited] returns [false] the result is
    that of [updateSession] on the request as received. *)
Theorem middleware_block_or_forward request now σ w :
  isProtectedPath request = true →
  let limited := (isRateLimited (clientIp request) now σ).1 in
  let σ' := (isRateLimited (clientIp request) now σ).2 in
  (limited = true →
     middleware updateSession request now σ w
       = (Response "Too Many Requests" 429, σ', w) ∧
     ∀ other, middleware other request now σ w
              = middleware updateSession request now σ w) ∧
  (limited = false →
     middleware updateSession request now σ w
       = ((updateSession request w).1, σ', (updateSession request w).2)).
Proof.
  intros Hprot limited σ'. subst limited σ'. unfold middleware. rewrite Hprot.
  destruct (isRateLimited (clientIp request) now σ) as [b σ1]. cbn [fst snd].
  split; intros ->.
  - done.
  - by destruct (updateSession request w).
Qed.
End Gate.

Lemma middleware_block_or_forward_witness :
  let request := mkRequest "POST" "/login" (Some "1.2.3.4") ∅ in
  let σ := final (replicate 10 ("1.2.3.4"%string, 0)) init in
  middleware (λ _ (w : unit), (Next [], w)) request 1 σ ()
  = (Response "Too Many Requests" 429,
     (isRateLimited (clientIp request) 1 σ).2, ()).
Proof.
  refine (proj1 (proj1 (middleware_block_or_forward (λ _ (w : unit), (Next [], w))
    (mkRequest "POST" "/login" (Some "1.2.3.4") ∅) 1
    (final (replicate 10 ("1.2.3.4"%string, 0)) init) () _) _)).
  - reflexivity.
  - reflexivity.
Defined.

(** ** Regular expressions *)

Section RegexFacts.
Import Regex.
Implicit Types (r : regex) (s w : list N) (k : list N → option nat) (p : N → bool).

Lemma rmatch_star_chr p s k : rmatch (Star (Chr p)) s k = star_chr p k s.
Proof.
  cbn [rmatch].
  assert (∀ fuel s', (length s' ≤ fuel)%nat →
            star_loop (rmatch (Chr p)) k fuel s' = star_chr p k s') as Hloop.
  { induction fuel as [|fuel IH]; intros s' Hlen.
    - destruct s'; [done | cbn in Hlen; lia].
    - destruct s' as [|c s']; [done|]. cbn [star_loop rmatch star_chr].
      destruct (p c); [|done].
      replace (length s' <? length (c :: s'))%nat with true
        by (symmetry; apply Nat.ltb_lt; cbn; lia).
      rewrite IH by (cbn in Hlen; lia). done. }
  by apply Hloop.
Qed.

(** A repetition of a class succeeds exactly when the continuation accepts
    what is left after some run of the class. *)
Lemma star_chr_is_Some p k s :
  is_Some (star_chr p k s) ↔
  ∃ x y, s = x ++ y ∧ Forall (λ c, p c = true) x ∧ is_Some (k y).
Proof.
  induction s as [|c s IH]; cbn [star_chr].
  - split.
    + intros Hk. by exists [], [].
    + intros (x & y & Hxy & _ & Hk).
      symmetry in Hxy. apply app_eq_nil in Hxy as [-> ->]. done.
  - destruct (p c) eqn:Hc.
    + split.
      * destruct (star_chr p k s) as [n|] eqn:Hs; cbn.
        -- intros _. destruct (proj1 IH) as (x & y & -> & Hx & Hk); [by eexists|].
           exists (c :: x), y. split; [done|]. split; [by constructor | done].
        -- intros Hk. by exists [], (c :: s).
      * intros (x & y & Hxy & Hx & Hk). destruct x as [|c' x].
        -- cbn in Hxy. subst y. destruct (star_chr p k s); cbn; [by eexists | done].
        -- injection Hxy as <- ->. apply Forall_cons in Hx as [_ Hx].
           destruct (proj2 IH) as [n ->]; [by exists x, y|]. cbn. by eexists.
    + split.
      * intros Hk. by exists [], (c :: s).
      * intros (x & y & Hxy & Hx & Hk). destruct x as [|c' x].
        -- cbn in Hxy. by subst y.
        -- injection Hxy as <- ->. apply Forall_cons in Hx as [Hc' _]. congruence.
Qed.

(** A literal matches exactly when it is a prefix. *)
Lemma rmatch_literal w s k :
  rmatch (foldr (λ c r, Seq (Chr (N.eqb c)) r) Eps w) s k =
  if decide (w `prefix_of` s)
  then (λ n, length w + n)%nat <$> k (drop (length w) s)
  else None.
Proof.
  revert s. induction w as [|c w IH]; intros s; cbn [foldr rmatch].
  - rewrite decide_True by apply prefix_nil. rewrite drop_0. by destruct (k s).
  - destruct s as [|c' s]; cbn.
    { rewrite decide_False; [done|]. by intros ?%prefix_nil_not. }
    destruct (N.eqb_spec c c') as [<-|Hne].
    + rewrite IH. destruct (decide (w `prefix_of` s)) as [Hp|Hp].
      * rewrite decide_True by by apply prefix_cons. cbn.
        by destruct (k (drop (length w) s)).
      * rewrite decide_False; [done|]. by intros ?%prefix_cons_inv_2.
    + rewrite decide_False; [done|]. by intros ?%prefix_cons_inv_1.
Qed.

Lemma rmatch_lit (w : string) s k :
  rmatch (lit w) s k =
  if decide (codes w `prefix_of` s)
  then (λ n, length (codes w) + n)%nat <$> k (drop (length (codes w)) s)
  else None.
Proof. apply rmatch_literal. Qed.

Lemma rmatch_alt_is_Some r1 r2 s k :
  is_Some (rmatch (Alt r1 r2) s k) ↔ is_Some (rmatch r1 s k) ∨ is_Some (rmatch r2 s k).
Proof.
  cbn. destruct (rmatch r1 s k) as [n|].
  - split; [by left | by eexists].
  - split; [by right | by intros [[? [=]] | ?]].
Qed.

Lemma rmatch_seq r1 r2 s k :
  rmatch (Seq r1 r2) s k = rmatch r1 s (λ s', rmatch r2 s' k).
Proof. done. Qed.

Lemma rmatch_lit_is_Some (w : string) s k :
  is_Some (rmatch (lit w) s k) ↔ ∃ rest, s = codes w ++ rest ∧ is_Some (k rest).
Proof.
  rewrite rmatch_lit. destruct (decide (codes w `prefix_of` s)) as [[rest ->]|Hno].
  - rewrite drop_app_length, fmap_is_Some. split; [by exists rest|].
    by intros (rest' & ->%app_inv_head & Hk).
  - split; [by intros [? [=]]|]. intros (rest & -> & _).
    destruct Hno. by exists rest.
Qed.

Lemma rmatch_chr_is_Some p s k :
  is_Some (rmatch (Chr p) s k) ↔ ∃ c rest, s = c :: rest ∧ p c = true ∧ is_Some (k rest).
Proof.
  destruct s as [|c s]; cbn.
  - split; [by intros [? [=]] | by intros (? & ? & [=] & _)].
  - destruct (p c) eqn:Hc.
    + rewrite fmap_is_Some. split; [by exists c, s|].
      by intros (? & ? & [= <- <-] & _ & Hk).
    + split; [by intros [? [=]]|]. intros (? & ? & [= <- <-] & Hc' & _). congruence.
Qed.

Lemma rmatch_star_chr_is_Some p s k :
  is_Some (rmatch (Star (Chr p)) s k) ↔
  ∃ x y, s = x ++ y ∧ Forall (λ c, p c = true) x ∧ is_Some (k y).
Proof. rewrite rmatch_star_chr. apply star_chr_is_Some. Qed.

Lemma rmatch_end_is_Some s k :
  is_Some (rmatch EndInput s k) ↔ s = [] ∧ is_Some (k []).
Proof.
  destruct s; cbn.
  - split; [by split | by intros [_ ?]].
  - split; [by intros [? [=]] | by intros [[=] _]].
Qed.

Lemma rmatch_neglook_is_Some r s k :
  is_Some (rmatch (NegLook r) s k) ↔
  ¬ is_Some (rmatch r s (λ _, Some O)) ∧ is_Some (k s).
Proof.
  cbn. destruct (rmatch r s (λ _, Some O)) as [n|].
  - split; [by intros [? [=]]|]. intros [Hno _]. destruct Hno. by eexists.
  - split; [|by intros [_ ?]]. intros Hk. split; [by intros [? [=]] | done].
Qed.
End RegexFacts.

(** ** The matcher *)

Section MatcherFacts.
Import Regex Matcher.
Local Open Scope string_scope.
Implicit Types (rest : list N) (pathname : string).

Lemma not_line_terminator_Forall (x : list N) :
  Forall (λ c, negb (line_terminator c) = true) x ↔
  Forall (λ c, line_terminator c = false) x.
Proof. apply Forall_proper; [|done]. intros c. by destruct (line_terminator c). Qed.

Lemma extension_is_Some (y : list N) :
  is_Some (rmatch
    (Seq (lit ".")
       (Seq (alts [lit "svg"; lit "png"; lit "jpg"; lit "jpeg"; lit "gif"] (lit "webp"))
          EndInput)) y (λ _, Some O)) ↔
  ∃ ext, ext ∈ image_extensions ∧ y = (codes "." ++ codes ext)%list.
Proof.
  rewrite rmatch_seq, rmatch_lit_is_Some. unfold alts, image_extensions. cbn [foldr].
  split.
  - intros (y' & -> & Hy'). rewrite rmatch_seq in Hy'.
    repeat (apply rmatch_alt_is_Some in Hy' as [Hy' | Hy']);
      apply rmatch_lit_is_Some in Hy' as (e & -> & [-> _]%rmatch_end_is_Some);
      rewrite app_nil_r; eexists; (split; [|done]); set_solver.
  - intros (ext & Hext & ->). eexists. split; [done|]. rewrite rmatch_seq.
    assert (∀ k, is_Some (k []) → is_Some (rmatch (lit ext) (codes ext) k)) as Hlit.
    { intros k Hk. apply rmatch_lit_is_Some. exists []. by rewrite app_nil_r. }
    assert (is_Some (rmatch EndInput [] (λ _, Some O))) as Hend by by eexists.
    repeat (apply elem_of_cons in Hext as [-> | Hext]);
      [ repeat (apply rmatch_alt_is_Some; first [left; by apply Hlit | right]) .. | ];
      try by apply Hlit.
    by apply elem_of_nil in Hext.
Qed.

(** The lookahead, read as a condition on what follows the slash. *)
Lemma lookahead_is_Some rest :
  is_Some (rmatch lookahead rest (λ _, Some O)) ↔
  codes "_next/static" `prefix_of` rest ∨
  codes "_next/image" `prefix_of` rest ∨
  (∃ c, line_terminator c = false ∧ (codes "favicon" ++ c :: codes "ico")%list `prefix_of` rest) ∨
  codes "login" `prefix_of` rest ∨
  codes "register" `prefix_of` rest ∨
  (∃ x ext, ext ∈ image_extensions ∧ Forall (λ c, line_terminator c = false) x ∧
            rest = (x ++ codes "." ++ codes ext)%list).
Proof.
  unfold lookahead, alts. cbn [foldr].
  rewrite !rmatch_alt_is_Some.
  assert (∀ w : string, is_Some (rmatch (lit w) rest (λ _, Some O)) ↔ codes w `prefix_of` rest)
    as Hlit.
  { intros w. rewrite rmatch_lit_is_Some. split.
    - intros (r & -> & _). by exists r.
    - intros [r ->]. exists r. split; [done | by eexists]. }
  rewrite !Hlit.
  assert (is_Some (rmatch (Seq (lit "favicon") (Seq Dot (lit "ico"))) rest (λ _, Some O)) ↔
          ∃ c, line_terminator c = false ∧
               (codes "favicon" ++ c :: codes "ico")%list `prefix_of` rest) as ->.
  { rewrite rmatch_seq, rmatch_lit_is_Some. split.
    + intros (r & -> & Hr). rewrite rmatch_seq in Hr.
      apply rmatch_chr_is_Some in Hr as (c & r' & -> & Hc & Hr').
      apply rmatch_lit_is_Some in Hr' as (r'' & -> & _).
      exists c. split; [by destruct (line_terminator c)|].
      exists r''. by rewrite <- !app_assoc.
    + intros (c & Hc & r & ->). exists (c :: codes "ico" ++ r)%list.
      split; [by rewrite <- !app_assoc|]. rewrite rmatch_seq.
      apply rmatch_chr_is_Some. exists c, (codes "ico" ++ r)%list.
      split; [done|]. split; [by rewrite Hc|].
      apply rmatch_lit_is_Some. exists r. split; [done | by eexists]. }
  match goal with
  | |- _ ∨ _ ∨ _ ∨ _ ∨ _ ∨ ?A ↔ _ ∨ _ ∨ _ ∨ _ ∨ _ ∨ ?B => assert (A ↔ B) as ->; [|done]
  end.
  unfold Dot. rewrite rmatch_seq, rmatch_star_chr_is_Some. split.
  + intros (x & y & -> & Hx%not_line_terminator_Forall & Hy).
    apply extension_is_Some in Hy as (ext & Hext & ->). by exists x, ext.
  + intros (x & ext & Hext & Hx & ->). exists x, (codes "." ++ codes ext)%list.
    split; [done|]. split; [by apply not_line_terminator_Forall|].
    apply extension_is_Some. by exists ext.
Qed.

Lemma runs_on_iff pathname :
  runs_on pathname = true ↔
  ∃ rest, codes pathname = (codes "/" ++ rest)%list ∧
          Forall (λ c, line_terminator c = false) rest ∧
          ¬ excluded rest.
Proof.
  unfold runs_on, full_match, matcher. rewrite bool_decide_eq_true.
  rewrite rmatch_seq, rmatch_lit_is_Some.
  apply exist_proper. intros rest. apply and_iff_compat_l.
  rewrite rmatch_seq, rmatch_neglook_is_Some, lookahead_is_Some.
  unfold Dot. rewrite rmatch_star_chr_is_Some.
  assert ((∃ x y, rest = (x ++ y)%list ∧ Forall (λ c, negb (line_terminator c) = true) x ∧
                  is_Some (match y with [] => Some O | _ :: _ => None end)) ↔
          Forall (λ c, line_terminator c = false) rest) as ->.
  { split.
    - intros (x & y & -> & Hx%not_line_terminator_Forall & Hy).
      destruct y; [by rewrite app_nil_r | by destruct Hy].
    - intros Hrest. exists rest, []. rewrite app_nil_r.
      split; [done|]. split; [by apply not_line_terminator_Forall | by eexists]. }
  unfold excluded. split.
  - intros [Hno Hrest]. split; [done|]. intros Hex. apply Hno.
    destruct Hex as [?|[?|[?|[?|[?|(ext & Hext & x & ->)]]]]]; auto 10.
    do 5 right. exists x, ext. split; [done|]. split; [|done].
    by apply Forall_app in Hrest as [? _].
  - intros [Hrest Hno]. split; [|done]. intros Hex. apply Hno.
    destruct Hex as [?|[?|[?|[?|[?|(x & ext & Hext & _ & ->)]]]]]; auto 10.
    do 5 right. exists ext. split; [done|]. by exists x.
Qed.

(** X1.  The matcher accepts a pathname exactly when it starts with a
    slash, has no line terminator after it, and what follows the slash
    neither begins with [_next/static], [_next/image], [favicon?ico] (any
    character for the dot), [login] or [register], nor ends with a dot and
    one of the six image extensions. *)
Theorem matcher_accepts pathname :
  runs_on pathname = true ↔
  ∃ rest, codes pathname = (codes "/" ++ rest)%list ∧
          Forall (λ c, line_terminator c = false) rest ∧
          ¬ excluded rest.
Proof. apply runs_on_iff. Qed.

Lemma codes_app (a b : string) : codes (a +:+ b) = (codes a ++ codes b)%list.
Proof.
  unfold codes. induction a as [|c a IH]; [done|].
  change (String c a +:+ b) with (String c (a +:+ b)). cbn. by rewrite IH.
Qed.

Lemma codes_inj (a b : string) : codes a = codes b → a = b.
Proof.
  revert b. induction a as [|c a IH]; intros [|c' b]; try done.
  unfold codes. cbn. intros [= Hc Hab].
  f_equal; [|by apply IH].
  by rewrite <- (ascii_N_embedding c), <- (ascii_N_embedding c'), Hc.
Qed.

Lemma runs_on_login tail : runs_on ("/login" +:+ tail) = false.
Proof.
  apply not_true_is_false. intros (rest & Hrest & _ & Hno)%runs_on_iff.
  apply Hno. do 3 right. left.
  rewrite codes_app in Hrest. injection Hrest as <-. by exists (codes tail).
Qed.

(** X2.  No pathname that begins with [/login] is accepted by the matcher,
    while [/create] is.  So among the requests the middleware is run for,
    the limiter is consulted exactly for the POST requests to [/create]:
    the [/login] half of [isProtectedPath] is never taken. *)
Theorem limiter_guards_create_only :
  (∀ tail, runs_on ("/login" +:+ tail) = false) ∧
  runs_on "/create" = true ∧
  (∀ request, runs_on (pathname request) = true →
     (isProtectedPath request = true ↔
      method request = "POST" ∧ pathname request = "/create")).
Proof.
  split; [apply runs_on_login|]. split; [done|].
  intros request Hruns. unfold isProtectedPath.
  rewrite andb_true_iff, orb_true_iff, !String.eqb_eq.
  split; [|intros [Hm Hp]; split; [done | by right]].
  intros [Hm [Hp | Hp]]; [|done].
  pose proof (runs_on_login "") as Hlogin.
  change ("/login" +:+ "") with "/login" in Hlogin. congruence.
Qed.

Lemma limiter_guards_create_only_witness :
  isProtectedPath (mkRequest "POST" "/create" None ∅) = true ↔
  method (mkRequest "POST" "/create" None ∅) = "POST" ∧
  pathname (mkRequest "POST" "/create" None ∅) = "/create".
Proof.
  exact (proj2 (proj2 limiter_guards_create_only)
           (mkRequest "POST" "/create" None ∅) eq_refl).
Defined.
End MatcherFacts.

(** ** The session step and the requests served in sequence *)

Section SessionFacts.
Import Regex Matcher Session Pipeline.
Local Open Scope string_scope.
Context {World : Type}.
Variable getUser : NextRequest → World → AuthOutcome * World.
Implicit Types (request : NextRequest) (σ : Store) (w : World).

Lemma append_cons c (a b : string) : String c a +:+ b = String c (a +:+ b).
Proof. reflexivity. Qed.

Lemma startsWith_app (s pre : string) :
  startsWith s pre = true ↔ ∃ tail, s = pre +:+ tail.
Proof.
  unfold startsWith. revert s. induction pre as [|c pre IH]; intros s.
  - split; [|intros _; by destruct s]. intros _. exists s. reflexivity.
  - setoid_rewrite append_cons. destruct s as [|c' s]; cbn [String.prefix].
    { split; [done|]. intros [tail Htail]. discriminate Htail. }
    destruct (ascii_dec c c') as [<-|Hne].
    + rewrite IH. split; intros [tail Htail]; exists tail.
      * by rewrite Htail.
      * by injection Htail.
    + split; [done|]. intros [tail Htail]. injection Htail as -> _. done.
Qed.

Lemma updateSession_not_Response request w body status :
  (updateSession getUser request w).1 ≠ Response body status.
Proof.
  unfold updateSession. destruct (getUser request w) as [out w'].
  by destruct (_ && _).
Qed.

(** X3.  For a request the middleware is run for, the pathname never
    begins with [/login], so that exemption of [updateSession] is idle: the
    request is redirected to [/login] exactly when there is no user and
    the pathname does not begin with [/auth]. *)
Theorem redirect_under_matcher request w :
  runs_on (pathname request) = true →
  startsWith (pathname request) "/login" = false ∧
  ((updateSession getUser request w).1 = Redirect "/login" ↔
   user (getUser request w).1 = None ∧ startsWith (pathname request) "/auth" = false).
Proof.
  intros Hruns.
  assert (startsWith (pathname request) "/login" = false) as Hlogin.
  { apply not_true_is_false. intros [tail Htail]%startsWith_app.
    rewrite Htail, runs_on_login in Hruns. done. }
  split; [done|]. unfold updateSession. rewrite Hlogin.
  destruct (getUser request w) as [[bs [id|]] w']; cbn.
  - split; [done | by intros [[=] _]].
  - destruct (startsWith (pathname request) "/auth"); cbn.
    + split; [done | by intros [_ [=]]].
    + done.
Qed.
End SessionFacts.

Lemma redirect_under_matcher_witness :
  (Session.updateSession (λ _ (w : unit), (Session.mkAuth [] None, w))
     (mkRequest "GET" "/polls" None ∅) ()).1 = Redirect "/login" ↔
  Session.user ((λ _ (w : unit), (Session.mkAuth [] None, w))
                  (mkRequest "GET" "/polls" None ∅) ()).1 = None ∧
  Session.startsWith (pathname (mkRequest "GET" "/polls" None ∅)) "/auth" = false.
Proof.
  exact (proj2 (redirect_under_matcher (λ _ (w : unit), (Session.mkAuth [] None, w))
                  (mkRequest "GET" "/polls" None ∅) () eq_refl)).
Defined.

Section PipelineFacts.
Import Session Pipeline.
Local Open Scope string_scope.
Context {World : Type}.
Implicit Types (request : NextRequest) (σ : Store) (w : World)
  (reqs : list (NextRequest * Z)).

Lemma limiter_calls_cons request now reqs :
  limiter_calls ((request, now) :: reqs) =
  if isProtectedPath request then (clientIp request, now) :: limiter_calls reqs
  else limiter_calls reqs.
Proof.
  unfold limiter_calls. destruct (isProtectedPath request) eqn:Hp.
  - by rewrite filter_cons_True.
  - rewrite filter_cons_False; [done|]. cbn. congruence.
Qed.

Lemma middleware_store updateSession request now σ w :
  (middleware (World:=World) updateSession request now σ w).1.2 =
  if isProtectedPath request then (isRateLimited (clientIp request) now σ).2 else σ.
Proof.
  unfold middleware. destruct (isProtectedPath request).
  - destruct (isRateLimited (clientIp request) now σ) as [[] σ1]; [done|].
    by destruct (updateSession request w).
  - by destruct (updateSession request w).
Qed.

(** X4.  After any sequence of requests the limiter's store is what the
    calls for the checked requests alone leave, one call per POST to
    [/login] or [/create] under the client's key: the other requests do not
    touch it, and what [updateSession] answers plays no part. *)
Theorem serve_store updateSession reqs σ w :
  (serve (World:=World) updateSession reqs σ w).1.2 = final (limiter_calls reqs) σ.
Proof.
  revert σ w. induction reqs as [|[request now] reqs IH]; intros σ w; [done|].
  cbn [serve]. rewrite limiter_calls_cons.
  pose proof (middleware_store updateSession request now σ w) as Hst.
  destruct (middleware updateSession request now σ w) as [[resp σ1] w1].
  specialize (IH σ1 w1). destruct (serve updateSession reqs σ1 w1) as [[resps σ2] w2].
  cbn [fst snd] in *. rewrite IH, Hst.
  destruct (isProtectedPath request); [by rewrite final_cons | done].
Qed.

Variable getUser : NextRequest → World → AuthOutcome * World.

(** The responses to the checked requests of one client follow the
    limiter's decisions: the fixed 429 response where it rejects, a
    response of the session step where it admits. *)
Lemma responses_follow_decisions k reqs σ w :
  Forall2 (λ resp (b : bool),
             if b then resp = Response "Too Many Requests" 429
             else ∀ body status, resp ≠ Response body status)
    (responses_for (updateSession getUser) k reqs σ w)
    (decisions_for k (limiter_calls reqs) σ).
Proof.
  revert σ w. induction reqs as [|[request now] reqs IH]; intros σ w; [constructor|].
  cbn [responses_for]. rewrite limiter_calls_cons. unfold middleware.
  destruct (isProtectedPath request) eqn:Hp; cbn [andb decisions_for].
  - destruct (isRateLimited (clientIp request) now σ) as [b σ1].
    destruct b.
    + case_bool_decide; rewrite ?decide_True, ?decide_False by done;
        [constructor; [done|]|]; apply IH.
    + pose proof (updateSession_not_Response getUser request w) as Hresp.
      destruct (updateSession getUser request w) as [resp w1]. cbn in Hresp.
      case_bool_decide; rewrite ?decide_True, ?decide_False by done;
        [constructor; [done|]|]; apply IH.
  - destruct (updateSession getUser request w) as [resp w1]. apply IH.
Qed.

(** X5.  A client whose key has no live record sends a checked request at
    [t0], and further requests follow, its own checked ones no later than
    [t0 + RATE_LIMIT_WINDOW_MS].  Of the responses to its checked requests
    the first 10 come from the session step (none of them is a 429) and
    all the later ones are the response 429 "Too Many Requests". *)
Theorem eleventh_request_refused k request0 t0 reqs σ w :
  reachable σ →
  isProtectedPath request0 = true →
  clientIp request0 = k →
  expired (record_of σ k) t0 = true →
  (∀ request t, (request, t) ∈ reqs → isProtectedPath request = true →
     clientIp request = k → (t ≤ t0 + RATE_LIMIT_WINDOW_MS)%Z) →
  let resps := responses_for (updateSession getUser) k ((request0, t0) :: reqs) σ w in
  (∀ i resp, (i < 10)%nat → resps !! i = Some resp →
     ∀ body status, resp ≠ Response body status) ∧
  drop 10 resps = replicate (length resps - 10) (Response "Too Many Requests" 429).
Proof.
  intros Hreach Hp0 Hk0 Hexp Hwin resps.
  pose proof (responses_follow_decisions k ((request0, t0) :: reqs) σ w) as Hfollow.
  fold resps in Hfollow. rewrite limiter_calls_cons, Hp0, Hk0 in Hfollow.
  rewrite decisions_fresh_window in Hfollow; [|by apply wf_reachable|done|]; last first.
  { intros t Ht. unfold limiter_calls in Ht.
    apply list_elem_of_fmap in Ht as [[request t'] [[= Hkey ->] Hin]].
    apply list_elem_of_filter in Hin as [Hprot Hin]. by eapply Hwin. }
  set (m := S (length (times_for k (limiter_calls reqs)))) in *.
  pose proof (Forall2_length _ _ _ Hfollow) as Hlen.
  rewrite length_app, !length_replicate in Hlen.
  split.
  - intros i resp Hi Hresp.
    destruct (Forall2_lookup_l _ _ _ _ _ Hfollow Hresp) as (b & Hb & Hrel).
    rewrite lookup_app_l in Hb by (rewrite length_replicate; apply lookup_lt_Some in Hresp; lia).
    apply lookup_replicate in Hb as [-> _]. done.
  - symmetry. apply replicate_as_Forall. split; [by rewrite length_drop|].
    apply Forall_lookup. intros i resp Hresp. rewrite lookup_drop in Hresp.
    destruct (Forall2_lookup_l _ _ _ _ _ Hfollow Hresp) as (b & Hb & Hrel).
    rewrite lookup_app_r in Hb by (rewrite length_replicate; lia).
    apply lookup_replicate in Hb as [-> _]. done.
Qed.
End PipelineFacts.

Lemma eleventh_request_refused_witness :
  let request := mkRequest "POST" "/create" (Some "1.2.3.4") ∅ in
  let resps :=
    Pipeline.responses_for
      (Session.updateSession (λ _ (w : unit), (Session.mkAuth [] (Some "u1"), w)))
      "1.2.3.4" ((request, 0) :: replicate 11 (request, 0)) init () in
  drop 10 resps = replicate (length resps - 10) (Response "Too Many Requests" 429).
Proof.
  refine (proj2 (eleventh_request_refused
    (λ _ (w : unit), (Session.mkAuth [] (Some "u1"), w)) "1.2.3.4"
    (mkRequest "POST" "/create" (Some "1.2.3.4") ∅) 0
    (replicate 11 (mkRequest "POST" "/create" (Some "1.2.3.4") ∅, 0)) init ()
    reachable_init _ _ _ _)).
  - reflexivity.
  - reflexivity.
  - reflexivity.
  - intros request t Ht _ _. apply elem_of_replicate in Ht as [[= _ <-] _].
    unfold RATE_LIMIT_WINDOW_MS. lia.
Defined.

(** ** More on the limiter *)

Section LimiterMore.
Implicit Types (σ : Store) (k : string) (cs : list call) (r : HitRecord).

(** X6.  The map only grows: after a run it holds the keys it held before
    and the keys of all the calls made; no call removes a key, whether its
    window has expired or not. *)
Theorem keys_never_removed cs σ :
  dom (ipHits (final cs σ)) = dom (ipHits σ) ∪ list_to_set cs.*1.
Proof.
  revert σ. induction cs as [|[k now] cs IH]; intros σ.
  - rewrite final_nil. cbn. by rewrite (right_id_L ∅ (∪)).
  - rewrite final_cons, IH, dom_isRateLimited. cbn.
    rewrite (comm_L (∪) {[k]} (dom (ipHits σ))). by rewrite !(assoc_L (∪)).
Qed.

(** X7.  A call is rejected exactly when the count it leaves in the record
    of its key is above [RATE_LIMIT_MAX]; a record is left in every case. *)
Theorem rejected_iff_count_over k now σ :
  ∃ r', record_of (isRateLimited k now σ).2 k = Some r' ∧
        ((isRateLimited k now σ).1 = true ↔ RATE_LIMIT_MAX < count r').
Proof.
  destruct (isRateLimited_own σ k now) as [-> ->]. eexists. split; [done|].
  destruct (record_of σ k) as [r|]; cbn; [|split; [done | unfold RATE_LIMIT_MAX; lia]].
  destruct (resetAt r <? now); cbn;
    [split; [done | unfold RATE_LIMIT_MAX; lia] | apply Z.ltb_lt].
Qed.

Lemma replay_app o ts1 ts2 :
  replay o (ts1 ++ ts2) =
  ((replay o ts1).1 ++ (replay (replay o ts1).2 ts2).1, (replay (replay o ts1).2 ts2).2).
Proof.
  revert o. induction ts1 as [|t ts1 IH]; intros o.
  - cbn. by destruct (replay o ts2).
  - cbn [app]. rewrite !replay_cons. cbn [fst snd]. by rewrite IH.
Qed.

(** X8.  The windows are fixed, not sliding.  When a key opens a window at
    [t0], 9 calls at the last instant of it and 10 calls one millisecond
    later are all admitted: 19 admissions within one millisecond, 20 with
    the opening call. *)
Theorem burst_across_windows σ k t0 :
  reachable σ →
  expired (record_of σ k) t0 = true →
  decisions_for k
    ((k, t0) :: replicate 9 (k, t0 + RATE_LIMIT_WINDOW_MS)
       ++ replicate 10 (k, t0 + RATE_LIMIT_WINDOW_MS + 1)) σ
  = replicate 20 false.
Proof.
  intros Hreach Hexp.
  destruct (run_projects k
    ((k, t0) :: replicate 9 (k, t0 + RATE_LIMIT_WINDOW_MS)
       ++ replicate 10 (k, t0 + RATE_LIMIT_WINDOW_MS + 1)) σ) as [-> _];
    [by apply wf_reachable|].
  rewrite times_for_cons_eq, times_for_app, !times_for_replicate.
  rewrite app_comm_cons, replay_app.
  rewrite replay_fresh; [|done|]; last first.
  { apply Forall_replicate. lia. }
  cbn [fst snd]. change (replicate 10 (t0 + RATE_LIMIT_WINDOW_MS + 1))
    with (t0 + RATE_LIMIT_WINDOW_MS + 1 :: replicate 9 (t0 + RATE_LIMIT_WINDOW_MS + 1)).
  rewrite replay_fresh; [done| |].
  - cbn. lia.
  - apply Forall_replicate. unfold RATE_LIMIT_WINDOW_MS. lia.
Qed.

Lemma burst_across_windows_witness :
  decisions_for "1.2.3.4"
    (("1.2.3.4"%string, 0) :: replicate 9 ("1.2.3.4"%string, 0 + RATE_LIMIT_WINDOW_MS)
       ++ replicate 10 ("1.2.3.4"%string, 0 + RATE_LIMIT_WINDOW_MS + 1)) init
  = replicate 20 false.
Proof.
  exact (burst_across_windows init "1.2.3.4" 0 reachable_init eq_refl).
Defined.

(** X21.  Calls under pairwise different keys, none of which has a record,
    are all admitted, however many they are and whatever their times: the
    limit binds a client only as long as its key stays the same. *)
Theorem distinct_keys_all_admitted cs σ :
  reachable σ →
  NoDup cs.*1 →
  (∀ k, k ∈ cs.*1 → record_of σ k = None) →
  (run cs σ).1 = replicate (length cs) false.
Proof.
  intros Hwf%wf_reachable. revert σ Hwf.
  induction cs as [|[k now] cs IH]; intros σ Hwf Hdup Hnone; [done|].
  cbn [fmap list_fmap fst] in Hdup, Hnone. apply NoDup_cons in Hdup as [Hk Hdup].
  pose proof (isRateLimited_own σ k now) as [Hb _].
  rewrite (Hnone k) in Hb by apply list_elem_of_here.
  pose proof (wf_isRateLimited σ k now Hwf) as Hwf1.
  assert (∀ k', k' ∈ cs.*1 → record_of (isRateLimited k now σ).2 k' = None) as Hnone1.
  { intros k' Hk'. rewrite isRateLimited_other; [|done|by intros ->].
    apply Hnone. by apply list_elem_of_further. }
  specialize (IH _ Hwf1 Hdup Hnone1).
  cbn [run length replicate]. destruct (isRateLimited k now σ) as [b σ1].
  cbn [fst snd] in *. destruct (run cs σ1) as [bs σ2]. cbn [fst] in *.
  by rewrite Hb, IH.
Qed.

Lemma distinct_keys_all_admitted_witness :
  (run [("a"%string, 0); ("b"%string, 0); ("c"%string, 0)] init).1 = replicate 3 false.
Proof.
  apply (distinct_keys_all_admitted [("a"%string, 0); ("b"%string, 0); ("c"%string, 0)] init
           reachable_init).
  - cbn. repeat (apply NoDup_cons; split;
      [intros Hin; repeat (apply elem_of_cons in Hin as [[=] | Hin]);
       by apply elem_of_nil in Hin|]).
    apply NoDup_nil_2.
  - intros k _. reflexivity.
Defined.
End LimiterMore.

(** ** The sanitizers *)

Section SanitizeFacts.
Import Regex Sanitize.
Implicit Types (r : regex) (s x y : list N) (c : N) (p : N → bool).

Lemma remove_all_sublist r skip s : remove_all r skip s `sublist_of` s.
Proof.
  revert skip. induction s as [|c s IH]; intros skip; cbn [remove_all]; [done|].
  destruct skip as [|n]; [|by constructor].
  destruct (match_len r (c :: s)) as [[|n]|]; by constructor.
Qed.

Lemma trimStart_sublist s : trimStart s `sublist_of` s.
Proof.
  induction s as [|c s IH]; cbn; [done|].
  destruct (white c); [by constructor | done].
Qed.

Lemma trimEnd_sublist s : trimEnd s `sublist_of` s.
Proof.
  induction s as [|c s IH]; cbn; [done|].
  destruct (trimEnd s) as [|c' kept]; [|by constructor].
  destruct (white c); [by constructor|]. constructor. apply sublist_nil_l.
Qed.

Lemma js_trim_sublist s : js_trim s `sublist_of` s.
Proof.
  unfold js_trim. etrans; [apply trimEnd_sublist | apply trimStart_sublist].
Qed.

(** [!input] only short-cuts what the pipeline would give anyway. *)
Lemma sanitizeText_Some s :
  sanitizeText (Some s) =
  js_trim (replace_empty control_char (replace_empty protocol (replace_empty tag s))).
Proof. by destruct s. Qed.

Lemma sanitizeText_None : sanitizeText None = [].
Proof. done. Qed.

Lemma sublist_Forall (P : N → Prop) x y : x `sublist_of` y → Forall P y → Forall P x.
Proof.
  intros Hsub Hy. apply Forall_forall. intros c Hc.
  eapply Forall_forall; [done|]. by eapply sublist_subseteq.
Qed.

(** *** Control characters *)

Lemma remove_all_class p skip s :
  Forall (λ c, p c = false) (remove_all (Chr p) skip s).
Proof.
  revert skip. induction s as [|c s IH]; intros skip; cbn [remove_all]; [done|].
  destruct skip as [|n]; [|done].
  unfold match_len. cbn [rmatch]. destruct (p c) eqn:Hc; cbn; [done|].
  by constructor.
Qed.

(** *** Tags *)

Lemma tag_match_is_Some s :
  is_Some (match_len tag s) ↔
  ∃ x y, s = codes "<" ++ x ++ codes ">" ++ y ∧ Forall (λ c, c ≠ 62%N) x.
Proof.
  unfold match_len, tag. rewrite rmatch_seq, rmatch_lit_is_Some. split.
  - intros (rest & -> & Hrest).
    rewrite rmatch_seq in Hrest.
    apply rmatch_star_chr_is_Some in Hrest as (x & y & -> & Hx & Hy).
    apply rmatch_lit_is_Some in Hy as (z & -> & _).
    exists x, z. split; [done|].
    eapply Forall_impl; [done|]. cbn. intros c Hc ->. done.
  - intros (x & y & -> & Hx). eexists. split; [done|].
    rewrite rmatch_seq. apply rmatch_star_chr_is_Some.
    exists x, (codes ">" ++ y). split; [done|]. split.
    + eapply Forall_impl; [done|]. cbn. intros c Hc.
      by destruct (N.eqb_spec c 62).
    + apply rmatch_lit_is_Some. exists y. split; [done | by eexists].
Qed.

Lemma tag_match_positive s n : match_len tag s = Some n → (0 < n)%nat.
Proof.
  unfold match_len, tag. rewrite rmatch_seq, rmatch_lit.
  destruct (decide _); [|done].
  destruct (rmatch _ _ _); cbn; [|done]. intros [= <-]. lia.
Qed.

(** After [replace(/<[^>]*>/g, "")] no ["<"] has a [">"] to its right. *)
Lemma remove_all_tag_free skip s :
  ¬ codes "<>" `sublist_of` remove_all tag skip s.
Proof.
  revert skip. induction s as [|c s IH]; intros skip; cbn [remove_all].
  { by intros ?%sublist_nil_r. }
  destruct skip as [|n]; [|apply IH].
  destruct (match_len tag (c :: s)) as [[|n]|] eqn:Hm; [| apply IH |].
  { apply tag_match_positive in Hm. lia. }
  intros Hsub. change (codes "<>") with [60%N; 62%N] in Hsub.
  apply sublist_cons_r in Hsub as [Hsub | (l' & [= <- <-] & Hsub)].
  { by apply (IH O). }
  assert (62%N ∈ s) as Hgt.
  { eapply sublist_subseteq; [etrans; [done | apply remove_all_sublist]|].
    apply list_elem_of_here. }
  apply list_elem_of_split_l in Hgt as (x & y & -> & Hx).
  assert (is_Some (match_len tag (60%N :: x ++ 62%N :: y))) as [n Hn].
  { apply tag_match_is_Some. exists x, y. split; [done|].
    apply Forall_forall. intros c Hc ->. done. }
  congruence.
Qed.

(** *** Trimming *)

Lemma trimEnd_head c s :
  white c = false → ∃ s', trimEnd (c :: s) = c :: s'.
Proof.
  intros Hc. cbn. destruct (trimEnd s); rewrite ?Hc; eauto.
Qed.

Lemma trimStart_trimEnd s : trimStart s = s → trimStart (trimEnd s) = trimEnd s.
Proof.
  destruct s as [|c s]; [done|]. cbn [trimStart].
  destruct (white c) eqn:Hc.
  - intros Heq. pose proof (sublist_length _ _ (trimStart_sublist s)) as Hlen.
    rewrite Heq in Hlen. cbn in Hlen. lia.
  - intros _. destruct (trimEnd_head c s Hc) as [s' ->]. cbn. by rewrite Hc.
Qed.

Lemma trimStart_idemp s : trimStart (trimStart s) = trimStart s.
Proof.
  induction s as [|c s IH]; [done|]. cbn.
  destruct (white c) eqn:Hc; [done|]. cbn. by rewrite Hc.
Qed.

Lemma trimEnd_idemp s : trimEnd (trimEnd s) = trimEnd s.
Proof.
  induction s as [|c s IH]; [done|]. cbn.
  destruct (trimEnd s) as [|c' kept] eqn:Hs.
  - destruct (white c) eqn:Hc; [done|]. cbn. by rewrite Hc.
  - cbn [trimEnd] in IH |- *. by rewrite IH.
Qed.

Lemma js_trim_idemp s : js_trim (js_trim s) = js_trim s.
Proof.
  unfold js_trim. rewrite trimStart_trimEnd by apply trimStart_idemp.
  apply trimEnd_idemp.
Qed.

(** X9.  [sanitizeText] only deletes: its result is the input with some
    code units taken out, the others in their order; it is never longer
    than the input. *)
Theorem sanitizeText_only_deletes s :
  sanitizeText (Some s) `sublist_of` s ∧
  (length (sanitizeText (Some s)) ≤ length s)%nat.
Proof.
  assert (sanitizeText (Some s) `sublist_of` s) as Hsub.
  { rewrite sanitizeText_Some. unfold replace_empty.
    etrans; [apply js_trim_sublist|].
    etrans; [apply remove_all_sublist|].
    etrans; apply remove_all_sublist. }
  split; [done | by apply sublist_length].
Qed.

Lemma sanitizeText_tag_free input : ¬ codes "<>" `sublist_of` sanitizeText input.
Proof.
  destruct input as [s|]; [|by intros ?%sublist_nil_r].
  rewrite sanitizeText_Some. intros Hsub.
  apply (remove_all_tag_free O s). unfold replace_empty in Hsub.
  etrans; [done|]. etrans; [apply js_trim_sublist|].
  etrans; apply remove_all_sublist.
Qed.

Lemma sanitizeText_no_control input :
  Forall (λ c, control c = false) (sanitizeText input).
Proof.
  destruct input as [s|]; [|done]. rewrite sanitizeText_Some.
  eapply sublist_Forall; [apply js_trim_sublist|]. apply remove_all_class.
Qed.

Lemma sanitizeText_trimmed input : js_trim (sanitizeText input) = sanitizeText input.
Proof.
  destruct input as [s|]; [|done]. rewrite sanitizeText_Some. apply js_trim_idemp.
Qed.

(** X10.  In the result of [sanitizeText], whatever the input, no ["<"] is
    followed anywhere by a [">"]: no tag, complete or nested, survives. *)
Theorem sanitizeText_strips_tags input x y z :
  sanitizeText input ≠ x ++ codes "<" ++ y ++ codes ">" ++ z.
Proof.
  intros Heq. apply (sanitizeText_tag_free input). rewrite Heq.
  apply sublist_inserts_l. change (codes "<>") with (codes "<" ++ codes ">").
  apply sublist_app; [done|]. apply sublist_inserts_l, sublist_inserts_r. done.
Qed.

Lemma sanitizeText_strips_tags_witness :
  sanitizeText (Some (codes "<b>x</b>")) ≠ [] ++ codes "<" ++ codes "b" ++ codes ">" ++ codes "x".
Proof. apply (sanitizeText_strips_tags (Some (codes "<b>x</b>"))). Defined.

(** X11.  The result of [sanitizeText] has no control character (code
    units 0 to 31 and 127) and no white space at either end. *)
Theorem sanitizeText_no_control_trimmed input :
  Forall (λ c, (31 < c)%N ∧ c ≠ 127%N) (sanitizeText input) ∧
  js_trim (sanitizeText input) = sanitizeText input ∧
  (∀ c, head (sanitizeText input) = Some c → white c = false) ∧
  (∀ c, last (sanitizeText input) = Some c → white c = false).
Proof.
  split; [|split; [apply sanitizeText_trimmed|]].
  - eapply Forall_impl; [apply sanitizeText_no_control|]. cbn.
    intros c. unfold control. intros [?%N.leb_gt ?%N.eqb_neq]%orb_false_elim. done.
  - pose proof (sanitizeText_trimmed input) as Htrim.
    set (out := sanitizeText input) in *. clearbody out. split.
    + intros c Hc. destruct out as [|c' out]; [done|]. injection Hc as ->.
      destruct (white c) eqn:Hw; [|done]. exfalso.
      unfold js_trim in Htrim. cbn [trimStart] in Htrim. rewrite Hw in Htrim.
      pose proof (sublist_length _ _ (trimEnd_sublist (trimStart out))) as H1.
      pose proof (sublist_length _ _ (trimStart_sublist out)) as H2.
      rewrite Htrim in H1. cbn in H1. lia.
    + intros c Hc. destruct (white c) eqn:Hw; [|done]. exfalso.
      apply last_Some in Hc as [out' ->].
      assert (∀ l, trimEnd (l ++ [c]) = trimEnd l) as Hend.
      { induction l as [|d l IHl]; cbn; [by rewrite Hw|].
        cbn in IHl. by rewrite IHl. }
      assert (js_trim (out' ++ [c]) `sublist_of` out') as Hsub.
      { unfold js_trim.
        assert (∀ l, ∃ l', trimStart (l ++ [c]) = l' ++ [c] ∧ l' `sublist_of` l
                           ∨ trimStart (l ++ [c]) = [] ) as Hstart.
        { induction l as [|d l IHl]; cbn.
          - rewrite Hw. exists []. by right.
          - destruct (white d).
            + destruct IHl as [l' [[-> Hl'] | ->]]; exists l'; [left | by right].
              split; [done | by constructor].
            + exists (d :: l). by left. }
        destruct (Hstart out') as [l' [[-> Hl'] | ->]]; [|apply sublist_nil_l].
        rewrite Hend. etrans; [apply trimEnd_sublist | done]. }
      apply sublist_length in Hsub. rewrite Htrim, length_app in Hsub. cbn in Hsub. lia.
Qed.

(** *** Text that is left alone *)

Lemma remove_all_no_match r s :
  (∀ x y, s = x ++ y → match_len r y = None) → remove_all r O s = s.
Proof.
  induction s as [|c s IH]; intros Hno; [done|]. cbn [remove_all].
  rewrite (Hno [] (c :: s)) by done. f_equal. apply IH.
  intros x y ->. by apply (Hno (c :: x)).
Qed.

Lemma replace_tag_none s : ¬ codes "<>" `sublist_of` s → replace_empty tag s = s.
Proof.
  intros Hfree. apply remove_all_no_match. intros x y ->.
  apply eq_None_not_Some. intros (u & v & -> & _)%tag_match_is_Some.
  apply Hfree. apply sublist_inserts_l.
  change (codes "<>") with (codes "<" ++ codes ">").
  apply sublist_app; [done|]. apply sublist_inserts_l, sublist_inserts_r. done.
Qed.

Lemma replace_control_none s :
  Forall (λ c, control c = false) s → replace_empty control_char s = s.
Proof.
  intros Hs. apply remove_all_no_match. intros x y ->.
  apply Forall_app in Hs as [_ Hy]. unfold match_len, control_char.
  destruct Hy as [|c y Hc _]; cbn; [done|]. by rewrite Hc.
Qed.

Lemma upper_colon c : upper c = 58%N → c = 58%N.
Proof.
  unfold upper. destruct (_ && _) eqn:Hrange; [|done].
  apply andb_prop in Hrange as [?%N.leb_le ?%N.leb_le]. lia.
Qed.

(** A match of a literal under [i] covers code units that fold to those of
    the literal. *)
Lemma rmatch_lit_i_is_Some (w : list N) s k :
  is_Some (rmatch (foldr (λ c r, Seq (Chr (λ u : N, N.eqb (upper u) (upper c))) r) Eps w) s k) →
  ∃ pre rest, s = pre ++ rest ∧ upper <$> pre = upper <$> w ∧ is_Some (k rest).
Proof.
  revert s. induction w as [|c w IH]; intros s; cbn [foldr rmatch].
  - intros Hk. by exists [], s.
  - destruct s as [|c' s]; cbn; [by intros [? [=]]|].
    destruct (N.eqb_spec (upper c') (upper c)) as [Hc|]; [|by intros [? [=]]].
    intros (pre & rest & -> & Hpre & Hk)%fmap_is_Some%IH.
    exists (c' :: pre), rest. cbn. by rewrite Hc, Hpre.
Qed.

Lemma protocol_match_colon s : is_Some (match_len protocol s) → 58%N ∈ s.
Proof.
  unfold match_len, protocol. intros [H | H]%rmatch_alt_is_Some;
    apply rmatch_lit_i_is_Some in H as (pre & rest & -> & Hpre & _);
    apply elem_of_app; left.
  - assert (58%N ∈ upper <$> pre) as Hin by (rewrite Hpre; vm_compute; set_solver).
    apply list_elem_of_fmap in Hin as (c & Hc & Hin). symmetry in Hc.
    apply upper_colon in Hc. by subst c.
  - assert (58%N ∈ upper <$> pre) as Hin by (rewrite Hpre; vm_compute; set_solver).
    apply list_elem_of_fmap in Hin as (c & Hc & Hin). symmetry in Hc.
    apply upper_colon in Hc. by subst c.
Qed.

Lemma replace_protocol_none s : 58%N ∉ s → replace_empty protocol s = s.
Proof.
  intros Hs. apply remove_all_no_match. intros x y ->.
  apply eq_None_not_Some. intros Hin%protocol_match_colon.
  apply Hs, elem_of_app. by right.
Qed.

(** X12.  Text in which no ["<"] is followed by a [">"], with no colon, no
    control character and no white space at either end comes back from
    [sanitizeText] unchanged. *)
Theorem sanitizeText_keeps_plain_text s :
  ¬ codes "<>" `sublist_of` s →
  58%N ∉ s →
  Forall (λ c, control c = false) s →
  js_trim s = s →
  sanitizeText (Some s) = s.
Proof.
  intros Htag Hcolon Hctrl Htrim.
  rewrite sanitizeText_Some, replace_tag_none, replace_protocol_none,
    replace_control_none by done.
  done.
Qed.

Lemma sanitizeText_keeps_plain_text_witness :
  sanitizeText (Some (codes "Safe Title")) = codes "Safe Title".
Proof.
  apply sanitizeText_keeps_plain_text.
  - intros Hsub. vm_compute in Hsub.
    repeat (apply sublist_cons_r in Hsub as [Hsub | (? & [=] & _)]).
    by apply sublist_nil_r in Hsub.
  - vm_compute. intros Hin. repeat (apply elem_of_cons in Hin as [[=] | Hin]).
    by apply elem_of_nil in Hin.
  - vm_compute. repeat constructor.
  - reflexivity.
Defined.

Lemma trimEnd_keep c s : white c = false → trimEnd s = s → trimEnd (c :: s) = c :: s.
Proof. intros Hc Hs. cbn. rewrite Hs. destruct s; by rewrite ?Hc. Qed.

Lemma trimStart_keep c s : white c = false → trimStart (c :: s) = c :: s.
Proof. intros Hc. cbn. by rewrite Hc. Qed.

Lemma remove_all_keep r c s :
  match_len r (c :: s) = None → remove_all r O (c :: s) = c :: remove_all r O s.
Proof. intros Hm. cbn [remove_all]. by rewrite Hm. Qed.

Lemma remove_all_cut r c s n :
  match_len r (c :: s) = Some (S n) → remove_all r O (c :: s) = remove_all r n s.
Proof. intros Hm. cbn [remove_all]. by rewrite Hm. Qed.

Lemma remove_all_skip r c s n : remove_all r (S n) (c :: s) = remove_all r n s.
Proof. done. Qed.

(** X13.  The protocol words are removed in one pass over the text, and
    what the removal brings together is not looked at again: from
    ["jajavascript:vascript:"] followed by plain text the result is
    ["javascript:"] followed by that text. *)
Theorem sanitizeText_single_pass (tail : list N) :
  60%N ∉ tail →
  58%N ∉ tail →
  Forall (λ c, control c = false) tail →
  trimEnd tail = tail →
  sanitizeText (Some (codes "jajavascript:vascript:" ++ tail)) = codes "javascript:" ++ tail.
Proof.
  intros Hlt Hcolon Hctrl Hend.
  rewrite sanitizeText_Some.
  set (input := codes "jajavascript:vascript:"). vm_compute in input.
  set (output := codes "javascript:"). vm_compute in output.
  subst input output. cbn [app].
  rewrite replace_tag_none; last first.
  { intros Hsub%sublist_subseteq. specialize (Hsub 60%N).
    assert (60%N ∈ codes "<>") as Hin by (vm_compute; apply list_elem_of_here).
    apply Hsub in Hin.
    repeat (apply elem_of_cons in Hin as [[=] | Hin]). done. }
  unfold replace_empty at 2.
  do 2 rewrite remove_all_keep by (vm_compute; reflexivity).
  rewrite (remove_all_cut _ _ _ 10) by (vm_compute; reflexivity).
  rewrite !remove_all_skip.
  do 9 rewrite remove_all_keep by (vm_compute; reflexivity).
  fold (replace_empty protocol tail). rewrite replace_protocol_none by done.
  rewrite replace_control_none; last first.
  { repeat (apply Forall_cons; split; [vm_compute; reflexivity|]). done. }
  unfold js_trim. rewrite trimStart_keep by (vm_compute; reflexivity).
  repeat (apply trimEnd_keep; [vm_compute; reflexivity|]). done.
Qed.

Lemma sanitizeText_single_pass_witness :
  sanitizeText (Some (codes "jajavascript:vascript:" ++ codes "alert(1)"))
  = codes "javascript:" ++ codes "alert(1)".
Proof.
  apply sanitizeText_single_pass.
  - vm_compute. intros Hin. repeat (apply elem_of_cons in Hin as [[=] | Hin]).
    by apply elem_of_nil in Hin.
  - vm_compute. intros Hin. repeat (apply elem_of_cons in Hin as [[=] | Hin]).
    by apply elem_of_nil in Hin.
  - vm_compute. repeat constructor.
  - reflexivity.
Defined.

Lemma sanitizeText_clean_or_empty input :
  sanitizeText input = [] ∨ clean (sanitizeText input).
Proof.
  destruct (decide (sanitizeText input = [])) as [?|Hne]; [by left | right].
  split; [done|]. split; [apply sanitizeText_tag_free|].
  split; [apply sanitizeText_no_control | apply sanitizeText_trimmed].
Qed.

Lemma sanitizeStringArray_Some (inputs : list (list N)) :
  sanitizeStringArray (Some inputs) =
  filter (λ s, s ≠ []) ((λ s, sanitizeText (Some s)) <$> inputs).
Proof.
  unfold sanitizeStringArray. f_equal. rewrite <- list_fmap_compose.
  apply list_fmap_ext. intros i s _. exact (sanitizeText_trimmed (Some s)).
Qed.

(** X14.  [sanitizeStringArray] gives the sanitized inputs in their order
    with the empty ones left out; its second trimming changes nothing.
    Every string of the result is not empty, has no ["<"] followed by a
    [">"], no control character and no white space at either end; for a
    value that is not an array the result is empty. *)
Theorem sanitizeStringArray_contract (inputs : list (list N)) :
  sanitizeStringArray (Some inputs) =
    filter (λ s, s ≠ []) ((λ s, sanitizeText (Some s)) <$> inputs) ∧
  Forall clean (sanitizeStringArray (Some inputs)) ∧
  (length (sanitizeStringArray (Some inputs)) ≤ length inputs)%nat ∧
  sanitizeStringArray None = [].
Proof.
  split; [apply sanitizeStringArray_Some|]. rewrite sanitizeStringArray_Some.
  split; [|split; [|done]].
  - apply Forall_forall. intros s [Hne Hin]%list_elem_of_filter.
    apply list_elem_of_fmap in Hin as (raw & -> & _).
    by destruct (sanitizeText_clean_or_empty (Some raw)).
  - etrans; [apply length_filter|]. by rewrite length_fmap.
Qed.
End SanitizeFacts.

(** ** The poll actions *)

Section PollFacts.
Import Regex Sanitize Polls.
Local Open Scope string_scope.
Implicit Types (formData : FormData) (es : list Effect) (res : option string).

(** Dropping the empty raw options first makes no difference. *)
Lemma sanitizeStringArray_prefilter (raw : list (list N)) :
  sanitizeStringArray (Some (filter (λ s, s ≠ []) raw)) = sanitizeStringArray (Some raw).
Proof.
  rewrite !sanitizeStringArray_Some. induction raw as [|s raw IH]; [done|].
  destruct (decide (s = [])) as [->|Hs].
  - rewrite filter_cons_False by (intros ?; done). cbn [fmap list_fmap].
    rewrite (filter_cons_False _ (sanitizeText (Some []))) by (intros ?; done). done.
  - rewrite filter_cons_True by done. cbn [fmap list_fmap].
    destruct (decide (sanitizeText (Some s) = [])) as [He|He].
    + by rewrite !filter_cons_False by (intros ?; done).
    + by rewrite !filter_cons_True, IH by done.
Qed.

Lemma form_check formData :
  bool_decide (sanitizeText (fd_get formData "question") = []) ||
  (length (sanitizeStringArray
             (Some (filter (λ s, s ≠ []) (fd_getAll formData "options")))) <? 2)%nat
  = false ↔ valid_form formData.
Proof.
  rewrite sanitizeStringArray_prefilter, orb_false_iff, bool_decide_eq_false, Nat.ltb_ge.
  done.
Qed.

Lemma valid_form_clean formData :
  valid_form formData →
  clean (sanitizeText (fd_get formData "question")) ∧
  Forall clean (sanitizeStringArray (Some (fd_getAll formData "options"))).
Proof.
  intros [Hq _]. split.
  - by destruct (sanitizeText_clean_or_empty (fd_get formData "question")).
  - apply sanitizeStringArray_contract.
Qed.

Section Inversions.
Context {R : Type}.

Lemma performs_return_inv (r : R) es (out : R) :
  performs (Return r) es out → es = [] ∧ out = r.
Proof. by inversion 1. Qed.

Lemma performs_client_inv (k : Action R) es (out : R) :
  performs (CreateClient k) es out →
  ∃ es', es = DidCreateClient :: es' ∧ performs k es' out.
Proof. inversion 1; subst. eauto. Qed.

Lemma performs_getUser_inv (k : option string → option string → Action R) es (out : R) :
  performs (GetUser k) es out →
  ∃ user userError es',
    es = DidGetUser user userError :: es' ∧ performs (k user userError) es' out.
Proof. inversion 1; subst. eauto 6. Qed.

Lemma performs_insert_inv row (k : option string → Action R) es (out : R) :
  performs (Insert row k) es out →
  ∃ error es', es = DidInsert row :: es' ∧ performs (k error) es' out.
Proof. inversion 1; subst. eauto. Qed.

Lemma performs_update_inv p owner q opts (k : option string → Action R) es (out : R) :
  performs (Update p owner q opts k) es out →
  ∃ error es', es = DidUpdate p owner q opts :: es' ∧ performs (k error) es' out.
Proof. inversion 1; subst. eauto. Qed.

Lemma performs_select_inv id (k : PollRow + string → Action R) es (out : R) :
  performs (SelectPoll id k) es out →
  ∃ answer es', es = DidSelect id answer :: es' ∧ performs (k answer) es' out.
Proof. inversion 1; subst. eauto. Qed.

Lemma performs_revalidate_inv path (k : Action R) es (out : R) :
  performs (RevalidatePath path k) es out →
  ∃ es', es = DidRevalidate path :: es' ∧ performs k es' out.
Proof. inversion 1; subst. eauto. Qed.
End Inversions.

(** Membership in a list of effects written out. *)
Ltac no_such_effect Hin :=
  repeat (apply elem_of_cons in Hin as [[=] | Hin]); by apply elem_of_nil in Hin.

Lemma createPoll_can_succeed formData id :
  valid_form formData →
  performs (createPoll formData)
    [DidCreateClient; DidGetUser (Some id) None;
     DidInsert (mkPoll id (sanitizeText (fd_get formData "question"))
                  (sanitizeStringArray (Some (fd_getAll formData "options"))));
     DidRevalidate "/polls"] None.
Proof.
  intros Hvalid. unfold createPoll.
  rewrite (proj2 (form_check formData) Hvalid), sanitizeStringArray_prefilter.
  apply performs_client. apply (performs_getUser _ (Some id) None).
  apply (performs_insert _ _ None). apply performs_revalidate, performs_return.
Qed.

Lemma createPoll_can_fail formData :
  ¬ valid_form formData →
  performs (createPoll formData) [DidCreateClient] (Some validation_error).
Proof.
  intros Hinvalid. unfold createPoll.
  destruct (_ || _) eqn:Hcheck; [|by apply form_check in Hcheck].
  apply performs_client, performs_return.
Qed.

Lemma updatePoll_needs_user pollId formData :
  valid_form formData →
  performs (updatePoll pollId formData) [DidCreateClient; DidGetUser None None]
    (Some "You must be logged in to update a poll.").
Proof.
  intros Hvalid. unfold updatePoll.
  rewrite (proj2 (form_check formData) Hvalid).
  apply performs_client. apply (performs_getUser _ None None). apply performs_return.
Qed.

(** X15.  A form whose question is empty after sanitizing, or of whose
    options fewer than two are left after sanitizing, is turned down with
    the fixed message before the user is looked up or the database is
    touched; any other form leads to the look-up of the user.  Removing
    the empty raw options beforehand does not change the outcome. *)
Theorem createPoll_validation formData :
  (¬ valid_form formData →
   ∀ es res, performs (createPoll formData) es res →
     es = [DidCreateClient] ∧ res = Some validation_error) ∧
  (valid_form formData →
   ∀ es res, performs (createPoll formData) es res →
     ∃ user userError es', es = DidCreateClient :: DidGetUser user userError :: es').
Proof.
  unfold createPoll. split.
  - intros Hinvalid es res (es1 & -> & Hrun)%performs_client_inv.
    destruct (_ || _) eqn:Hcheck; [|by apply form_check in Hcheck].
    by apply performs_return_inv in Hrun as [-> ->].
  - intros Hvalid%form_check es res (es1 & -> & Hrun)%performs_client_inv.
    rewrite Hvalid in Hrun.
    apply performs_getUser_inv in Hrun as (user & userError & es2 & -> & _). eauto.
Qed.

Lemma createPoll_validation_witness :
  [DidCreateClient] = [DidCreateClient] ∧ Some validation_error = Some validation_error.
Proof.
  refine (proj1 (createPoll_validation
    [("question", codes "<b></b>"); ("options", codes "a"); ("options", codes "b")]) _
    [DidCreateClient] (Some validation_error) _).
  - intros [Hq _]. apply Hq. vm_compute. reflexivity.
  - apply createPoll_can_fail. intros [Hq _]. apply Hq. vm_compute. reflexivity.
Defined.

(** X16.  Whatever the provider and the database answer, a row that
    [createPoll] inserts carries the id of the user that [getUser] gave
    without an error, a question and at least two options that are the
    sanitized fields of the form, all of them clean; and [createPoll]
    reports success only after exactly that: client, user, insert,
    revalidation of [/polls].  It never updates a row. *)
Theorem createPoll_inserts_clean_rows formData es res :
  performs (createPoll formData) es res →
  (∀ row, DidInsert row ∈ es →
     DidGetUser (Some (user_id row)) None ∈ es ∧
     question row = sanitizeText (fd_get formData "question") ∧
     options row = sanitizeStringArray (Some (fd_getAll formData "options")) ∧
     clean (question row) ∧ (2 ≤ length (options row))%nat ∧ Forall clean (options row)) ∧
  (res = None →
   ∃ row, es = [DidCreateClient; DidGetUser (Some (user_id row)) None; DidInsert row;
                DidRevalidate "/polls"]) ∧
  (∀ pollId owner q opts, DidUpdate pollId owner q opts ∉ es).
Proof.
  unfold createPoll. intros (es1 & -> & Hrun)%performs_client_inv.
  destruct (_ || _) eqn:Hcheck.
  { apply performs_return_inv in Hrun as [-> ->].
    split; [|split; [done|]]; intros * Hin; no_such_effect Hin. }
  pose proof (proj1 (form_check formData) Hcheck) as Hvalid.
  destruct (valid_form_clean formData Hvalid) as [Hq Hopts].
  rewrite sanitizeStringArray_prefilter in Hrun.
  apply performs_getUser_inv in Hrun as (user & userError & es2 & -> & Hrun).
  destruct userError as [message|].
  { apply performs_return_inv in Hrun as [-> ->].
    split; [|split; [done|]]; intros * Hin; no_such_effect Hin. }
  destruct user as [id|]; last first.
  { apply performs_return_inv in Hrun as [-> ->].
    split; [|split; [done|]]; intros * Hin; no_such_effect Hin. }
  apply performs_insert_inv in Hrun as (error & es3 & -> & Hrun).
  assert (∀ path, es3 = [] ∨ es3 = [DidRevalidate path] →
          ∀ row, DidInsert row ∈ DidCreateClient :: DidGetUser (Some id) None
              :: DidInsert (mkPoll id (sanitizeText (fd_get formData "question"))
                   (sanitizeStringArray (Some (fd_getAll formData "options")))) :: es3 →
            DidGetUser (Some (user_id row)) None ∈
              DidCreateClient :: DidGetUser (Some id) None
              :: DidInsert (mkPoll id (sanitizeText (fd_get formData "question"))
                   (sanitizeStringArray (Some (fd_getAll formData "options")))) :: es3 ∧
            question row = sanitizeText (fd_get formData "question") ∧
            options row = sanitizeStringArray (Some (fd_getAll formData "options")) ∧
            clean (question row) ∧ (2 ≤ length (options row))%nat ∧
            Forall clean (options row)) as Hrow.
  { intros path Hes3 row Hin.
    apply elem_of_cons in Hin as [[=] | Hin]. apply elem_of_cons in Hin as [[=] | Hin].
    apply elem_of_cons in Hin as [[= ->] | Hin].
    - cbn. split; [apply elem_of_cons; right; apply list_elem_of_here|].
      destruct Hvalid. done.
    - destruct Hes3 as [-> | ->]; no_such_effect Hin. }
  destruct error as [message|].
  - apply performs_return_inv in Hrun as [-> ->].
    split; [apply (Hrow ""); by left|]. split; [done|].
    intros * Hin; no_such_effect Hin.
  - apply performs_revalidate_inv in Hrun as (es4 & -> & Hrun).
    apply performs_return_inv in Hrun as [-> ->].
    split; [apply (Hrow "/polls"); by right|]. split.
    + intros _. by eexists (mkPoll id _ _).
    + intros * Hin; no_such_effect Hin.
Qed.

Lemma createPoll_inserts_clean_rows_witness :
  ∃ row, [DidCreateClient; DidGetUser (Some "u1") None;
          DidInsert (mkPoll "u1" (codes "Tea?") [codes "yes"; codes "no"]);
          DidRevalidate "/polls"]
         = [DidCreateClient; DidGetUser (Some (user_id row)) None; DidInsert row;
            DidRevalidate "/polls"].
Proof.
  refine (proj1 (proj2 (createPoll_inserts_clean_rows
    [("question", codes " <i>Tea?</i> "); ("options", codes "yes"); ("options", codes "");
     ("options", codes "<b>no</b>")]
    [DidCreateClient; DidGetUser (Some "u1") None;
     DidInsert (mkPoll "u1" (codes "Tea?") [codes "yes"; codes "no"]);
     DidRevalidate "/polls"] None _)) eq_refl).
  assert (mkPoll "u1" (codes "Tea?") [codes "yes"; codes "no"] =
          mkPoll "u1"
            (sanitizeText (fd_get [("question", codes " <i>Tea?</i> "); ("options", codes "yes");
                                   ("options", codes ""); ("options", codes "<b>no</b>")]
                             "question"))
            (sanitizeStringArray (Some
               (fd_getAll [("question", codes " <i>Tea?</i> "); ("options", codes "yes");
                           ("options", codes ""); ("options", codes "<b>no</b>")]
                  "options")))) as -> by (vm_compute; reflexivity).
  apply createPoll_can_succeed. split.
  - vm_compute. discriminate.
  - vm_compute. lia.
Defined.

(** X17.  An update that [updatePoll] issues is for the poll id it was
    given and is restricted to rows owned by the user that [getUser] gave
    without an error; the question and the options it writes are the
    sanitized fields, clean and at least two.  [updatePoll] inserts no row
    and revalidates no path. *)
Theorem updatePoll_updates_own_rows pollId formData es res :
  performs (updatePoll pollId formData) es res →
  (∀ p owner q opts, DidUpdate p owner q opts ∈ es →
     p = pollId ∧ DidGetUser (Some owner) None ∈ es ∧
     q = sanitizeText (fd_get formData "question") ∧
     opts = sanitizeStringArray (Some (fd_getAll formData "options")) ∧
     clean q ∧ (2 ≤ length opts)%nat ∧ Forall clean opts) ∧
  (∀ row, DidInsert row ∉ es) ∧
  (∀ path, DidRevalidate path ∉ es).
Proof.
  unfold updatePoll. intros (es1 & -> & Hrun)%performs_client_inv.
  destruct (_ || _) eqn:Hcheck.
  { apply performs_return_inv in Hrun as [-> ->].
    split; [|split]; intros * Hin; no_such_effect Hin. }
  pose proof (proj1 (form_check formData) Hcheck) as Hvalid.
  destruct (valid_form_clean formData Hvalid) as [Hq Hopts].
  rewrite sanitizeStringArray_prefilter in Hrun.
  apply performs_getUser_inv in Hrun as (user & userError & es2 & -> & Hrun).
  destruct userError as [message|].
  { apply performs_return_inv in Hrun as [-> ->].
    split; [|split]; intros * Hin; no_such_effect Hin. }
  destruct user as [id|]; last first.
  { apply performs_return_inv in Hrun as [-> ->].
    split; [|split]; intros * Hin; no_such_effect Hin. }
  apply performs_update_inv in Hrun as (error & es3 & -> & Hrun).
  assert (es3 = []) as ->.
  { destruct error; by apply performs_return_inv in Hrun as [-> _]. }
  split; [|split].
  - intros p owner q opts Hin.
    apply elem_of_cons in Hin as [[=] | Hin]. apply elem_of_cons in Hin as [[=] | Hin].
    apply elem_of_cons in Hin as [[= -> -> -> ->] | Hin]; [|by apply elem_of_nil in Hin].
    split; [done|]. split; [apply elem_of_cons; right; apply list_elem_of_here|].
    destruct Hvalid. done.
  - intros row Hin. no_such_effect Hin.
  - intros path Hin. no_such_effect Hin.
Qed.

Lemma updatePoll_updates_own_rows_witness :
  DidInsert (mkPoll "u1" (codes "Tea?") [codes "yes"; codes "no"])
    ∉ [DidCreateClient; DidGetUser None None].
Proof.
  refine (proj1 (proj2 (updatePoll_updates_own_rows "p1"
    [("question", codes "Tea?"); ("options", codes "yes"); ("options", codes "no")]
    [DidCreateClient; DidGetUser None None]
    (Some "You must be logged in to update a poll.") _))
    (mkPoll "u1" (codes "Tea?") [codes "yes"; codes "no"])).
  apply updatePoll_needs_user. split.
  - vm_compute. discriminate.
  - vm_compute. lia.
Defined.

(** X18.  [getPollById] hands out a row only when the query for it
    succeeded, a user is signed in and that user's id is the row's
    [user_id]; in every other case [poll] is [null] and [error] is set.
    Exactly one of the two is [null]. *)
Theorem getPollById_owner_only id es poll error :
  performs (getPollById id) es (poll, error) →
  (∀ row, poll = Some row →
     error = None ∧
     ∃ userError, es = [DidCreateClient; DidSelect id (inl row);
                        DidGetUser (Some (user_id row)) userError]) ∧
  (poll = None → is_Some error).
Proof.
  unfold getPollById. intros (es1 & -> & Hrun)%performs_client_inv.
  apply performs_select_inv in Hrun as ([data|message] & es2 & -> & Hrun).
  - apply performs_getUser_inv in Hrun as ([uid|] & userError & es3 & -> & Hrun).
    + case_bool_decide as Howner.
      * apply performs_return_inv in Hrun as [-> [= -> ->]]. split; [done | by eexists].
      * apply performs_return_inv in Hrun as [-> [= -> ->]].
        split; [|done].
        intros row [= <-]. split; [done|]. exists userError. by rewrite Howner.
    + apply performs_return_inv in Hrun as [-> [= -> ->]]. split; [done | by eexists].
  - apply performs_return_inv in Hrun as [-> [= -> ->]]. split; [done | by eexists].
Qed.

Lemma getPollById_owner_only_witness :
  is_Some (Some "Not authorized to access this poll").
Proof.
  refine (proj2 (getPollById_owner_only "p1"
    [DidCreateClient; DidSelect "p1" (inl (mkPoll "u1" (codes "Tea?") [codes "a"; codes "b"]));
     DidGetUser (Some "u2") None]
    None (Some "Not authorized to access this poll") _) eq_refl).
  apply performs_client.
  apply (performs_select _ _ (inl (mkPoll "u1" (codes "Tea?") [codes "a"; codes "b"]))).
  apply (performs_getUser _ (Some "u2") None).
  apply performs_return.
Defined.
End PollFacts.

(** ** The option fields of the creation form *)

Section PollFormFacts.
Import PollForm.
Implicit Types (opts : list (list N)) (value : list N) (idx : nat) (es : list event).

Lemma delete_out_of_range {A} (l : list A) i : (length l ≤ i)%nat → delete i l = l.
Proof.
  intros Hi. rewrite delete_take_drop, take_ge, drop_ge by lia. apply app_nil_r.
Qed.

Lemma filter_index_past {A} idx i (l : list A) :
  (idx < i)%nat → filter_index (λ j, negb (bool_decide (j = idx))) i l = l.
Proof.
  revert i. induction l as [|x l IH]; intros i Hi; [done|]. cbn.
  rewrite bool_decide_eq_false_2 by lia. cbn. f_equal. apply IH. lia.
Qed.

Lemma filter_index_delete {A} idx i (l : list A) :
  (i ≤ idx)%nat →
  filter_index (λ j, negb (bool_decide (j = idx))) i l = delete (idx - i)%nat l.
Proof.
  revert i. induction l as [|x l IH]; intros i Hi; [done|]. cbn [filter_index].
  destruct (decide (i = idx)) as [->|Hne].
  - rewrite bool_decide_eq_true_2 by done. cbn [negb].
    rewrite Nat.sub_diag. cbn. apply filter_index_past. lia.
  - rewrite bool_decide_eq_false_2 by done. cbn [negb].
    replace (idx - i)%nat with (S (idx - S i)) by lia. cbn. f_equal. apply IH. lia.
Qed.

(** X19.  [handleOptionChange] rewrites the field at [idx] and no other,
    and does nothing when [idx] is out of range.  [removeOption] takes out
    exactly the field at [idx] of the current state when the render it
    was created in shows more than two fields, and changes nothing when
    that render shows two or fewer or [idx] is out of range.  The test
    looks at the render, not at the current state: two removals called
    from one render of three fields leave a single field. *)
Theorem option_handlers idx value options opts :
  handleOptionChange idx value opts = <[idx := value]> opts ∧
  removeOption idx options opts
    = (if (2 <? length options)%nat then delete idx opts else opts) ∧
  ((length opts ≤ idx)%nat →
   handleOptionChange idx value opts = opts ∧ removeOption idx options opts = opts) ∧
  (∀ a b c : list N,
     removeOption 1 [a; b; c] (removeOption 0 [a; b; c] [a; b; c]) = [b]).
Proof.
  assert (handleOptionChange idx value opts = <[idx := value]> opts) as Hchange.
  { unfold handleOptionChange. apply list_eq. intros i.
    rewrite list_lookup_imap, list_lookup_insert.
    destruct (opts !! i) as [opt|] eqn:Hi; cbn.
    - apply lookup_lt_Some in Hi. case_bool_decide; subst.
      + by rewrite decide_True by done.
      + rewrite decide_False; [done|]. intros [? _]. congruence.
    - apply lookup_ge_None in Hi. rewrite decide_False; [done|]. intros [-> ?]. lia. }
  assert (removeOption idx options opts
          = if (2 <? length options)%nat then delete idx opts else opts) as Hremove.
  { unfold removeOption. destruct (2 <? length options)%nat; [|done].
    rewrite filter_index_delete by lia. by rewrite Nat.sub_0_r. }
  split; [done|]. split; [done|]. split; [|done].
  intros Hout. rewrite Hchange, Hremove.
  split; [by apply list_insert_ge|].
  destruct (2 <? length options)%nat; [|done]. by apply delete_out_of_range.
Qed.

Lemma option_handlers_witness :
  handleOptionChange 5 [65%N] [[]; []] = [[]; []] ∧
  removeOption 5 [[]; []; []] [[]; []] = [[]; []].
Proof.
  refine (proj1 (proj2 (proj2 (option_handlers 5 [65%N] [[]; []; []] [[]; []]))) _).
  cbn. lia.
Defined.

Lemma handle_rendered_keeps_two e f :
  rendered f = live f → (2 ≤ length (live f))%nat →
  rendered (handle Render (handle e f)) = live (handle Render (handle e f)) ∧
  (2 ≤ length (live (handle Render (handle e f))))%nat.
Proof.
  intros Hsync Hlen. split; [done|].
  destruct e as [idx value| |idx|]; cbn [handle live rendered].
  - unfold handleOptionChange. by rewrite length_imap.
  - unfold addOption. rewrite length_app. lia.
  - destruct (option_handlers idx [] (rendered f) (live f)) as (_ & -> & _).
    rewrite Hsync.
    destruct (Nat.ltb_spec 2 (length (live f))) as [Hmore|]; [|done].
    destruct (decide (idx < length (live f))%nat) as [Hin|Hout].
    + rewrite length_delete by by apply lookup_lt_is_Some. lia.
    + rewrite delete_out_of_range by lia. done.
  - done.
Qed.

(** X20.  The form starts with two option fields.  When a render follows
    every handler call, so that each handler runs in the render of the
    state it acts on, the form never has fewer than two fields, whatever
    the changes, additions and removals.  Without the renders it can: an
    addition, a render and two removals called from that render leave one
    field. *)
Theorem at_least_two_options es :
  (2 ≤ length (live (after (each_rendered es))))%nat ∧
  length (live (after [Add; Render; Remove 0; Remove 1])) = 1%nat.
Proof.
  split; [|done].
  assert (rendered (after (each_rendered es)) = live (after (each_rendered es)) ∧
          (2 ≤ length (live (after (each_rendered es))))%nat) as [_ Hlen]; [|done].
  unfold after, each_rendered. induction es as [|e es IH] using rev_ind.
  - cbn. split; [done | lia].
  - rewrite bind_app, foldl_app. cbn [mbind list_bind app foldl].
    destruct IH as [Hsync Hlen]. by apply handle_rendered_keeps_two.
Qed.
End PollFormFacts.

